(** * hantei.js: bouncing rectangles with brute-force collision detection

    A shallow embedding of [src/traning/hantei.js].

    - JavaScript numbers are IEEE 754 binary64 values: they are modelled by
      Rocq's primitive [float], [+] by [PrimFloat.add], unary [-] by
      [PrimFloat.opp], [<] by [PrimFloat.ltb] (false as soon as an operand
      is NaN) and [a > b] by [b < a].
    - Objects live in a store and are named by references.  Actors are
      mutated in place ([update], [hit]) and the same actor may be pushed
      twice into a world, so the world holds references; colliders are
      objects too, and [translate] allocates a new one.
    - A method call on [null]/[undefined], or of a method the object does
      not have, throws a [TypeError].
    - The store also carries a log of the calls made on actors and on the
      detector.  The log is instrumentation: no method reads it. *)

From Stdlib Require Import Floats.
From stdpp Require Import base option list gmap strings.

(** ** Values *)

Definition num : Type := float.
Bind Scope float_scope with num.

(** [a > b] on numbers. *)
Definition gtb (a b : num) : bool := PrimFloat.ltb b a.

(** [a < b] where an operand may be [undefined] (a missing property):
    [undefined] converts to NaN and the comparison is false. *)
Definition js_lt (a b : option num) : bool :=
  match a, b with
  | Some a, Some b => PrimFloat.ltb a b
  | _, _ => false
  end.

(** Object references. *)
Definition ref : Type := nat.

Inductive Exn : Type := TypeError.

(** ** Colliders

    [class Collider] is the base class (a type tag and a position, no
    [translate]); [class RectangleCollider extends Collider] is the only
    subclass of the file.  [detectCollision] dispatches on the type tag
    and has a branch for colliders that are not rectangles, so further
    subclasses are anticipated: the file declares none, and they are taken
    as a parameter, a type [Shape] of such objects with the members the
    code uses. *)
Class ColliderSubclass (Shape : Type) : Type := {
  (* the tag the subclass passes to [super(type, x, y)] *)
  sub_type : Shape → string;
  (* its [translate(dx, dy)] *)
  sub_translate : Shape → num → num → Shape;
  (* its [top], [bottom], [left], [right], [None] when it has no such member *)
  sub_top : Shape → option num;
  sub_bottom : Shape → option num;
  sub_left : Shape → option num;
  sub_right : Shape → option num
}.

Inductive ColliderObj (Shape : Type) : Type :=
  | Collider (type : string) (x y : num)
  | RectangleCollider (x y width height : num)
  | SubCollider (s : Shape).
Arguments Collider {Shape} type x y.
Arguments RectangleCollider {Shape} x y width height.
Arguments SubCollider {Shape} s.

(** ** Actors

    [class Actor] and [class RectangleActor extends Actor].  [_collider]
    is [null] ([None]) or a reference to a collider. *)
Inductive ActorObj : Type :=
  | Actor (x y : num) (_collider : option ref)
  | RectangleActor (x y : num) (_collider : option ref)
      (width height : num) (_color : string) (_vx _vy : num).

(** ** The world, the store and the call log *)

(** [info = { world: { width, height } }] *)
Record Info : Type := { info_width : num; info_height : num }.

(** A [World]; [_detector] has no state and is left out. *)
Record World : Type := { _width : num; _height : num; _actors : list ref }.

Inductive Call (Shape : Type) : Type :=
  (* [a.update(info)] was called *)
  | Call_update (a : ref)
  (* [detectCollision(a1, a2)] read the global colliders [c1], [c2] and
     returned [result] *)
  | Call_detect (a1 a2 : ref) (c1 c2 : ColliderObj Shape) (result : bool)
  (* [self.hit(other)] was called *)
  | Call_hit (self other : ref).
Arguments Call_update {Shape} a.
Arguments Call_detect {Shape} a1 a2 c1 c2 result.
Arguments Call_hit {Shape} self other.

Record State (Shape : Type) : Type := {
  actor_heap : gmap ref ActorObj;
  collider_heap : gmap ref (ColliderObj Shape);
  calls : list (Call Shape)
}.
Arguments actor_heap {Shape} s.
Arguments collider_heap {Shape} s.
Arguments calls {Shape} s.
Arguments Build_State {Shape} actor_heap collider_heap calls.

(** ** Computations: state and exceptions *)

Inductive Outcome (Shape A : Type) : Type :=
  | Normal (a : A) (σ : State Shape)
  | Throw (e : Exn) (σ : State Shape).
Arguments Normal {Shape A} a σ.
Arguments Throw {Shape A} e σ.

Definition final {Shape A} (o : Outcome Shape A) : State Shape :=
  match o with Normal _ σ => σ | Throw _ σ => σ end.

Definition M (Shape A : Type) : Type := State Shape → Outcome Shape A.

#[global] Instance M_ret {Shape} : MRet (M Shape) :=
  λ A a σ, Normal a σ.
#[global] Instance M_bind {Shape} : MBind (M Shape) :=
  λ A B f m σ,
    match m σ with
    | Normal a σ' => f a σ'
    | Throw e σ' => Throw e σ'
    end.

Definition throw {Shape A} (e : Exn) : M Shape A := λ σ, Throw e σ.

Section Model.
Context {Shape : Type} {sub : ColliderSubclass Shape}.

Definition emit (c : Call Shape) : M Shape unit :=
  λ σ, Normal tt (Build_State (actor_heap σ) (collider_heap σ) (calls σ ++ [c])).

(** Reading the object behind a reference; a reference to nothing
    stands for [undefined]. *)
Definition load_actor (a : ref) : M Shape ActorObj :=
  λ σ, match actor_heap σ !! a with
       | Some o => Normal o σ
       | None => Throw TypeError σ
       end.

Definition store_actor (a : ref) (o : ActorObj) : M Shape unit :=
  λ σ, Normal tt (Build_State (<[a := o]> (actor_heap σ)) (collider_heap σ) (calls σ)).

Definition load_collider (c : ref) : M Shape (ColliderObj Shape) :=
  λ σ, match collider_heap σ !! c with
       | Some o => Normal o σ
       | None => Throw TypeError σ
       end.

(** [new]: the object gets a reference not in use. *)
Definition new_collider (o : ColliderObj Shape) : M Shape ref :=
  λ σ, let c := fresh (dom (collider_heap σ)) in
       Normal c (Build_State (actor_heap σ) (<[c := o]> (collider_heap σ)) (calls σ)).

Definition new_actor (o : ActorObj) : M Shape ref :=
  λ σ, let a := fresh (dom (actor_heap σ)) in
       Normal a (Build_State (<[a := o]> (actor_heap σ)) (collider_heap σ) (calls σ)).

(** *** Collider members *)

(** [get type() { return this._type; }] *)
Definition Collider_type (c : ColliderObj Shape) : string :=
  match c with
  | Collider type _ _ => type
  | RectangleCollider _ _ _ _ => "rectangle"%string
  | SubCollider s => sub_type s
  end.

Definition top (c : ColliderObj Shape) : option num :=
  match c with
  | Collider _ _ _ => None
  | RectangleCollider _ y _ _ => Some y
  | SubCollider s => sub_top s
  end.

Definition bottom (c : ColliderObj Shape) : option num :=
  match c with
  | Collider _ _ _ => None
  | RectangleCollider _ y _ height => Some (y + height)%float
  | SubCollider s => sub_bottom s
  end.

Definition left (c : ColliderObj Shape) : option num :=
  match c with
  | Collider _ _ _ => None
  | RectangleCollider x _ _ _ => Some x
  | SubCollider s => sub_left s
  end.

Definition right (c : ColliderObj Shape) : option num :=
  match c with
  | Collider _ _ _ => None
  | RectangleCollider x _ width _ => Some (x + width)%float
  | SubCollider s => sub_right s
  end.

(** The object [c.translate(dx, dy)] builds; [None] when [c] has no
    [translate] (the base class). *)
Definition translated (c : ColliderObj Shape) (dx dy : num) : option (ColliderObj Shape) :=
  match c with
  | Collider _ _ _ => None
  | RectangleCollider x y width height =>
      Some (RectangleCollider (x + dx)%float (y + dy)%float width height)
  | SubCollider s => Some (SubCollider (sub_translate s dx dy))
  end.

(** [translate(dx, dy) { return new RectangleCollider(...); }] *)
Definition translate (this : ref) (dx dy : num) : M Shape ref :=
  c ← load_collider this;
  match translated c dx dy with
  | Some c' => new_collider c'
  | None => throw TypeError
  end.

(** *** Actor members *)

Definition Actor_x (a : ActorObj) : num :=
  match a with Actor x _ _ => x | RectangleActor x _ _ _ _ _ _ _ => x end.
Definition Actor_y (a : ActorObj) : num :=
  match a with Actor _ y _ => y | RectangleActor _ y _ _ _ _ _ _ => y end.
(** [get collider() { return this._collider; }] *)
Definition collider (a : ActorObj) : option ref :=
  match a with Actor _ _ c => c | RectangleActor _ _ c _ _ _ _ _ => c end.

(** [get globalCollider() { return this._collider.translate(this.x, this.y) }] *)
Definition globalCollider (this : ref) : M Shape ref :=
  a ← load_actor this;
  match collider a with
  | Some c => translate c (Actor_x a) (Actor_y a)
  | None => throw TypeError
  end.

(** [new Actor({ collider })]; [new Actor()] is [new_Actor None]. *)
Definition new_Actor (collider : option ref) : M Shape ref :=
  new_actor (Actor 0 0 collider).

(** [new RectangleActor(x, y, width, height)], where [r1] and [r2] are
    the two values [Math.random()] returns. *)
Definition new_RectangleActor (x y width height r1 r2 : num) : M Shape ref :=
  collider ← new_collider (RectangleCollider 0 0 width height);
  new_actor (RectangleActor x y (Some collider) width height "rgb(0, 0, 0)"
               (r1 * 10 - 5)%float (r2 * 10 - 5)%float).

(** The fields of [this] after [update(info)]: [Actor.update] has an
    empty body, [RectangleActor.update] overrides it. *)
Definition updated (info : Info) (a : ActorObj) : ActorObj :=
  match a with
  | Actor _ _ _ => a
  | RectangleActor x y c width height _ vx vy =>
      let color := "rgb(0, 0, 0)"%string in
      let x := (x + vx)%float in
      let y := (y + vy)%float in
      let vx := if PrimFloat.ltb x 0 || gtb x (info_width info)
                then (- vx)%float else vx in
      let vy := if PrimFloat.ltb y 0 || gtb y (info_height info)
                then (- vy)%float else vy in
      RectangleActor x y c width height color vx vy
  end.

Definition update (this : ref) (info : Info) : M Shape unit :=
  a ← load_actor this;
  emit (Call_update this);;
  store_actor this (updated info a).

(** The fields of [this] after [hit(other)]. *)
Definition was_hit (a : ActorObj) : ActorObj :=
  match a with
  | Actor _ _ _ => a
  | RectangleActor x y c width height _ vx vy =>
      RectangleActor x y c width height "rgb(255, 0, 0)" vx vy
  end.

Definition hit (this other : ref) : M Shape unit :=
  a ← load_actor this;
  emit (Call_hit this other);;
  store_actor this (was_hit a).

(** *** CollisionDetector *)

Definition overlap (rect1 rect2 : ColliderObj Shape) : bool :=
  let horizontal := js_lt (left rect2) (right rect1) && js_lt (left rect1) (right rect2) in
  let vertical := js_lt (top rect2) (bottom rect1) && js_lt (top rect1) (bottom rect2) in
  horizontal && vertical.

Definition detectRectangleCollision (rect1 rect2 : ref) : M Shape bool :=
  r1 ← load_collider rect1;
  r2 ← load_collider rect2;
  mret (overlap r1 r2).

(** What [detectCollision] answers on the global colliders [c1], [c2]. *)
Definition dispatch (c1 c2 : ColliderObj Shape) : bool :=
  if String.eqb (Collider_type c1) "rectangle" && String.eqb (Collider_type c2) "rectangle"
  then overlap c1 c2
  else false.

Definition detectCollision (actor1 actor2 : ref) : M Shape bool :=
  c1 ← globalCollider actor1;
  c2 ← globalCollider actor2;
  o1 ← load_collider c1;
  o2 ← load_collider c2;
  result ← (if String.eqb (Collider_type o1) "rectangle"
               && String.eqb (Collider_type o2) "rectangle"
            then detectRectangleCollision c1 c2
            else mret false);
  emit (Call_detect actor1 actor2 o1 o2 result);;
  mret result.

(** *** World *)

Definition addActor (w : World) (actor : ref) : World :=
  {| _width := _width w; _height := _height w; _actors := _actors w ++ [actor] |}.

(** [array.forEach(f)] *)
Fixpoint forEach (l : list ref) (f : ref → M Shape unit) : M Shape unit :=
  match l with
  | [] => mret tt
  | a :: l => f a;; forEach l f
  end.

(** [for (let i = lo; i < hi; i++) body(i)], with [n] iterations left. *)
Fixpoint for_loop (n : nat) (i : nat) (body : nat → M Shape unit) : M Shape unit :=
  match n with
  | 0 => mret tt
  | S n => body i;; for_loop n (S i) body
  end.
Definition for_range (lo hi : nat) (body : nat → M Shape unit) : M Shape unit :=
  for_loop (hi - lo) lo body.

(** [array[i]]; out of range it is [undefined], and every use the code
    makes of it then throws. *)
Definition at_index (l : list ref) (i : nat) : M Shape ref :=
  match l !! i with
  | Some a => mret a
  | None => throw TypeError
  end.

(** One pair of the sweep: the body of the inner loop. *)
Definition hitTest_pair (w : World) (i j : nat) : M Shape unit :=
  a1 ← at_index (_actors w) i;
  a2 ← at_index (_actors w) j;
  h ← detectCollision a1 a2;
  if (h : bool) then hit a1 a2;; hit a2 a1 else mret tt.

(** [length - 1] is [-1] on the empty array and [i < -1] fails at once:
    the truncated subtraction of [nat] gives the same loop. *)
Definition _hitTest (w : World) : M Shape unit :=
  let length := length (_actors w) in
  for_range 0 (length - 1) (λ i,
    for_range (i + 1) length (λ j, hitTest_pair w i j)).

Definition update_all (w : World) : M Shape unit :=
  let info := {| info_width := _width w; info_height := _height w |} in
  forEach (_actors w) (λ a, update a info).

Definition World_update (w : World) : M Shape unit :=
  update_all w;;
  _hitTest w.

End Model.

(** ** Rendering and the main program

    The canvas is outside the program: of its 2D context only what the
    program sends to it is kept, in order. *)
Inductive CanvasOp : Type :=
  (* [context.fillStyle = style] *)
  | Set_fillStyle (style : string)
  (* [context.fillRect(x, y, width, height)] *)
  | Op_fillRect (x y width height : num)
  (* [context.clearRect(x, y, width, height)] *)
  | Op_clearRect (x y width height : num).

Section Program.
Context {Shape : Type} {sub : ColliderSubclass Shape}.

(** What [render(context)] sends: [Actor.render] has an empty body,
    [RectangleActor.render] sets the colour and fills the rectangle.
    Rendering reads the actor and writes to the context only. *)
Definition rendered (a : ActorObj) : list CanvasOp :=
  match a with
  | Actor _ _ _ => []
  | RectangleActor x y _ width height color _ _ =>
      [Set_fillStyle color; Op_fillRect x y width height]
  end.

(** [World.render(context)]: the operations sent, and the [TypeError]
    that stopped the [forEach] when an element is no actor. *)
Fixpoint render_each (σ : State Shape) (l : list ref) : list CanvasOp * option Exn :=
  match l with
  | [] => ([], None)
  | a :: l =>
      match actor_heap σ !! a with
      | Some o => let '(ops, e) := render_each σ l in (rendered o ++ ops, e)
      | None => ([], Some TypeError)
      end
  end.

Definition World_render (w : World) (σ : State Shape) : list CanvasOp * option Exn :=
  render_each σ (_actors w).

(** [const world = new World(worldSize, worldSize)] *)
Definition worldSize : num := 500.
Definition new_World (width height : num) : World :=
  {| _width := width; _height := height; _actors := [] |}.

(** The loop that fills the world: one iteration for each element of
    [randoms], which holds the four values [Math.random()] returns in that
    iteration (for [x], for [y], and in the constructor for [_vx] and
    [_vy]).  The program runs it 1000 times. *)
Fixpoint populate (randoms : list (num * num * num * num)) (world : World) : M Shape World :=
  match randoms with
  | [] => mret world
  | (r1, r2, r3, r4) :: randoms =>
      let x := (r1 * worldSize)%float in
      let y := (r2 * worldSize)%float in
      rect ← new_RectangleActor x y 10 10 r3 r4;
      populate randoms (addActor world rect)
  end.

(** One call of [loop] without the clock: [world.update()], then
    [context.clearRect(0, 0, worldSize, worldSize)] and
    [world.render(context)].  The operations are those sent to the canvas
    during the call; an exception leaves the call at once. *)
Definition frame (w : World) (σ : State Shape) : Outcome Shape unit * list CanvasOp :=
  match World_update w σ with
  | Normal _ σ' =>
      let '(ops, e) := World_render w σ' in
      (match e with None => Normal tt σ' | Some e => Throw e σ' end,
       Op_clearRect 0 0 worldSize worldSize :: ops)
  | Throw e σ' => (Throw e σ', [])
  end.

(** [n] calls of [loop], each requested by the one before: the state
    reached and the operations sent, frame after frame. *)
Fixpoint frames (n : nat) (w : World) (σ : State Shape) : Outcome Shape unit * list CanvasOp :=
  match n with
  | 0 => (Normal tt σ, [])
  | S n =>
      match frame w σ with
      | (Normal _ σ', ops) => let '(o, ops') := frames n w σ' in (o, ops ++ ops')
      | r => r
      end
  end.

End Program.

(** ** Reading a state *)

Section Reading.
Context {Shape : Type} {sub : ColliderSubclass Shape}.

(** The global collider actor [a] has in state [σ]: its collider moved
    by its position.  [None] when [a] is no actor, has no collider, or
    its collider cannot be translated. *)
Definition global_of (σ : State Shape) (a : ref) : option (ColliderObj Shape) :=
  o ← actor_heap σ !! a;
  c ← collider o;
  co ← collider_heap σ !! c;
  translated co (Actor_x o) (Actor_y o).

(** Actor [a] is at [(x, y)] and its collider is the object [co]. *)
Definition placed (σ : State Shape) (a : ref) (x y : num) (co : ColliderObj Shape) : Prop :=
  ∃ o c, actor_heap σ !! a = Some o ∧ Actor_x o = x ∧ Actor_y o = y ∧
         collider o = Some c ∧ collider_heap σ !! c = Some co.

(** The object a computation returned a reference to. *)
Definition result_obj (o : Outcome Shape ref) : option (ColliderObj Shape) :=
  match o with
  | Normal c σ => collider_heap σ !! c
  | Throw _ _ => None
  end.

(** What a computation returned or threw, without the state. *)
Definition value_of {A} (o : Outcome Shape A) : A + Exn :=
  match o with
  | Normal x _ => inl x
  | Throw e _ => inr e
  end.

(** The state [detectCollision a1 a2] leaves when the global colliders
    are [g1] and [g2]: two new colliders, one more call in the log. *)
Definition after_detect (σ : State Shape) (a1 a2 : ref) (g1 g2 : ColliderObj Shape) : State Shape :=
  let c1 := fresh (dom (collider_heap σ)) in
  let h1 := <[c1 := g1]> (collider_heap σ) in
  let c2 := fresh (dom h1) in
  Build_State (actor_heap σ) (<[c2 := g2]> h1)
    (calls σ ++ [Call_detect a1 a2 g1 g2 (dispatch g1 g2)]).

(** Whether [a.hit(_)] is among the calls [l]. *)
Definition hit_by (l : list (Call Shape)) (a : ref) : bool :=
  existsb (λ c, match c with Call_hit self _ => Nat.eqb self a | _ => false end) l.

(** The arguments of the detector calls among [l], in order. *)
Definition detect_args (l : list (Call Shape)) : list (ref * ref) :=
  omap (λ c, match c with Call_detect a1 a2 _ _ _ => Some (a1, a2) | _ => None end) l.

Definition is_update (c : Call Shape) : bool :=
  match c with Call_update _ => true | _ => false end.

(** *** The sweep as the specification words it *)

(** All pairs [(i, j)] of indices below [n] with [i < j]. *)
Definition index_pairs (n : nat) : list (nat * nat) :=
  filter (λ p, p.1 < p.2) (list_prod (seq 0 n) (seq 0 n)).

(** The same pairs in the order the two loops of [_hitTest] visit them. *)
Definition loop_pairs (n : nat) : list (nat * nat) :=
  flat_map (λ i, pair i <$> seq (i + 1) (n - (i + 1))) (seq 0 (n - 1)).

(** For one pair: the detector is called, and when it reports an overlap
    the first actor is hit with the second, then the second with the
    first. *)
Definition pair_calls (σ : State Shape) (a1 a2 : ref) : list (Call Shape) :=
  match global_of σ a1, global_of σ a2 with
  | Some c1, Some c2 =>
      Call_detect a1 a2 c1 c2 (dispatch c1 c2)
        :: (if dispatch c1 c2 then [Call_hit a1 a2; Call_hit a2 a1] else [])
  | _, _ => []
  end.

Definition index_pair_calls (σ : State Shape) (actors : list ref) (p : nat * nat) : list (Call Shape) :=
  match actors !! p.1, actors !! p.2 with
  | Some a1, Some a2 => pair_calls σ a1 a2
  | _, _ => []
  end.

Definition sweep_calls (σ : State Shape) (actors : list ref) : list (Call Shape) :=
  flat_map (index_pair_calls σ actors) (index_pairs (length actors)).

(** [σ] is [σ0] after the calls [new] of a sweep: the log grew by [new],
    colliders were only added, and an actor changed only by being hit. *)
Definition swept (σ0 : State Shape) (new : list (Call Shape)) (σ : State Shape) : Prop :=
  calls σ = calls σ0 ++ new ∧
  collider_heap σ0 ⊆ collider_heap σ ∧
  ∀ a : ref, actor_heap σ !! a
       = (if hit_by new a then was_hit else id) <$> actor_heap σ0 !! a.

(** [σ] is [σ0] after [update(info)] on the actors [done], one after the
    other: an actor was updated once for each time it occurs. *)
Definition moved (info : Info) (σ0 : State Shape) (done : list ref) (σ : State Shape) : Prop :=
  calls σ = calls σ0 ++ (Call_update <$> done) ∧
  collider_heap σ = collider_heap σ0 ∧
  ∀ a : ref, actor_heap σ !! a
       = Nat.iter (count_occ Nat.eq_dec done a) (updated info) <$> actor_heap σ0 !! a.

(** The colour of a rectangle actor. *)
Definition color_of (σ : State Shape) (a : ref) : option string :=
  match actor_heap σ !! a with
  | Some (RectangleActor _ _ _ _ _ color _ _) => Some color
  | _ => None
  end.

(** The empty store. *)
Definition empty_state : State Shape := Build_State ∅ ∅ [].

(** In state [σ] the entry [i] of [actors] overlaps another entry: the
    detector's dispatch holds of their global colliders. *)
Definition overlaps_another (σ : State Shape) (actors : list ref) (a : ref) : Prop :=
  ∃ (i j : nat) (b : ref) (ga gb : ColliderObj Shape),
    i ≠ j ∧ actors !! i = Some a ∧ actors !! j = Some b ∧
    global_of σ a = Some ga ∧ global_of σ b = Some gb ∧ dispatch ga gb = true.

(** Actor [a] exists and its [_collider] is [null], or an object of the
    base class, which has no [translate]. *)
Definition no_collider (σ : State Shape) (a : ref) : Prop :=
  ∃ o, actor_heap σ !! a = Some o ∧
       (collider o = None ∨
        ∃ c type x y, collider o = Some c ∧ collider_heap σ !! c = Some (Collider type x y)).

(** Every actor of [σ] is an actor of [σ0] changed in a way [R] allows,
    and there is no other. *)
Definition related (R : ActorObj → ActorObj → Prop) (σ0 σ : State Shape) : Prop :=
  ∀ a : ref, option_Forall2 R (actor_heap σ0 !! a) (actor_heap σ !! a).

(** The computation [m] keeps [P]: from a state where [P] holds it ends,
    normally or by an exception, in a state where [P] holds. *)
Definition keeps {A} (P : State Shape → Prop) (m : M Shape A) : Prop :=
  ∀ σ, P σ → P (final (m σ)).

(** The same object, or the same object after [hit]. *)
Definition same_or_hit (o o' : ActorObj) : Prop := o' = o ∨ o' = was_hit o.

(** The same class, collider and size, and each velocity component kept
    or negated. *)
Definition same_speed (o o' : ActorObj) : Prop :=
  match o, o' with
  | Actor _ _ c, Actor _ _ c' => c' = c
  | RectangleActor _ _ c width height _ vx vy,
    RectangleActor _ _ c' width' height' _ vx' vy' =>
      c' = c ∧ width' = width ∧ height' = height ∧
      (vx' = vx ∨ vx' = (- vx)%float) ∧ (vy' = vy ∨ vy' = (- vy)%float)
  | _, _ => False
  end.

(** The state [new RectangleActor(...)] leaves. *)
Definition constructed (σ : State Shape) (x y width height r1 r2 : num) : State Shape :=
  Build_State
    (<[fresh (dom (actor_heap σ)) :=
         RectangleActor x y (Some (fresh (dom (collider_heap σ)))) width height
           "rgb(0, 0, 0)" (r1 * 10 - 5)%float (r2 * 10 - 5)%float]> (actor_heap σ))
    (<[fresh (dom (collider_heap σ)) := RectangleCollider 0 0 width height]>
       (collider_heap σ))
    (calls σ).

(** A 10x10 rectangle body in its initial colour. *)
Definition small_black (σ : State Shape) (a : ref) : Prop :=
  ∃ x y c vx vy,
    actor_heap σ !! a = Some (RectangleActor x y (Some c) 10 10 "rgb(0, 0, 0)" vx vy).

(** What the sweep logs for one pair: a detector call that returned
    [false], or a detector call that returned [true] with, right after
    it, the first body hit with the second and then the second with the
    first. *)
Definition is_block (l : list (Call Shape)) : Prop :=
  ∃ (a b : ref) (c1 c2 : ColliderObj Shape),
    l = [Call_detect a b c1 c2 false] ∨
    l = [Call_detect a b c1 c2 true; Call_hit a b; Call_hit b a].

(** The body [a] as the set-up loop makes it from the four random values
    of its iteration, with a 10x10 collider at its origin. *)
Definition set_up (σ : State Shape) (a : ref) (r : num * num * num * num) : Prop :=
  ∃ c : ref,
    actor_heap σ !! a =
      Some (RectangleActor (r.1.1.1 * worldSize)%float (r.1.1.2 * worldSize)%float
              (Some c) 10 10 "rgb(0, 0, 0)"
              (r.1.2 * 10 - 5)%float (r.2 * 10 - 5)%float) ∧
    collider_heap σ !! c = Some (RectangleCollider 0 0 10 10).

(** No two different actors of the list hold the same collider. *)
Definition separate (σ : State Shape) (l : list ref) : Prop :=
  ∀ (a b : ref) (oa ob : ActorObj) (c : ref),
    a ∈ l → b ∈ l → a ≠ b →
    actor_heap σ !! a = Some oa → actor_heap σ !! b = Some ob →
    collider oa = Some c → collider ob ≠ Some c.

(** The world [w] with the bodies [actors] instead of its own. *)
Definition with_actors (w : World) (actors : list ref) : World :=
  {| _width := _width w; _height := _height w; _actors := actors |}.

(** Every actor of the list has a global collider. *)
Definition ready (σ : State Shape) (actors : list ref) : Prop :=
  ∀ a, a ∈ actors → is_Some (global_of σ a).

End Reading.

(** ** Sample objects *)

(** A world of rectangles only: no other collider class. *)
#[global] Instance no_subclass : ColliderSubclass Empty_set := {
  sub_type s := match s with end;
  sub_translate s _ _ := s;
  sub_top _ := None;
  sub_bottom _ := None;
  sub_left _ := None;
  sub_right _ := None
}.

(** A collider class the file could be extended with: a circle, tagged
    ["circle"], with no [top], [bottom], [left], [right]. *)
Record Circle : Type := { circle_x : num; circle_y : num; circle_radius : num }.

#[global] Instance circle_subclass : ColliderSubclass Circle := {
  sub_type _ := "circle"%string;
  sub_translate s dx dy :=
    {| circle_x := (circle_x s + dx)%float;
       circle_y := (circle_y s + dy)%float;
       circle_radius := circle_radius s |};
  sub_top _ := None;
  sub_bottom _ := None;
  sub_left _ := None;
  sub_right _ := None
}.

(** A state with the given actors and colliders and an empty log. *)
Definition state_of {Shape} (actors : list (ref * ActorObj))
    (colliders : list (ref * ColliderObj Shape)) : State Shape :=
  Build_State (list_to_map actors) (list_to_map colliders) [].

(** Two 10x10 rectangle actors at (0,0) and (10,0): they share the edge
    [x = 10]. *)
Definition touching : State Empty_set :=
  state_of
    [(0, RectangleActor 0 0 (Some 0) 10 10 "rgb(0, 0, 0)" 1 1);
     (1, RectangleActor 10 0 (Some 1) 10 10 "rgb(0, 0, 0)" 1 1)]
    [(0, RectangleCollider 0 0 10 10); (1, RectangleCollider 0 0 10 10)].

(** A body at [x = -1] with [vx = -3]. *)
Definition leaving : State Empty_set :=
  state_of
    [(0, RectangleActor (-1) 20 (Some 0) 10 10 "rgb(255, 0, 0)" (-3) 2)]
    [(0, RectangleCollider 0 0 10 10)].

(** Three actors: the first two are 5 apart and moving towards each
    other, the third is far away. *)
Definition three : State Empty_set :=
  state_of
    [(0, RectangleActor 0 0 (Some 0) 10 10 "rgb(0, 0, 0)" 4 0);
     (1, RectangleActor 15 0 (Some 1) 10 10 "rgb(0, 0, 0)" (-4) 0);
     (2, RectangleActor 100 100 (Some 2) 10 10 "rgb(0, 0, 0)" 1 1)]
    [(0, RectangleCollider 0 0 10 10); (1, RectangleCollider 0 0 10 10);
     (2, RectangleCollider 0 0 10 10)].

Definition world500 (actors : list ref) : World :=
  {| _width := 500; _height := 500; _actors := actors |}.

(** A rectangle actor and a circle actor on top of each other. *)
Definition mixed : State Circle :=
  state_of
    [(0, RectangleActor 0 0 (Some 0) 10 10 "rgb(0, 0, 0)" 1 1);
     (1, Actor 5 5 (Some 1))]
    [(0, RectangleCollider 0 0 10 10);
     (1, SubCollider {| circle_x := 0; circle_y := 0; circle_radius := 5 |})].

(** Three actors: the first two overlap, the third is far away. *)
Definition crowded : State Empty_set :=
  state_of
    [(0, RectangleActor 0 0 (Some 0) 10 10 "rgb(0, 0, 0)" 1 1);
     (1, RectangleActor 5 5 (Some 1) 10 10 "rgb(0, 0, 0)" 1 1);
     (2, RectangleActor 100 100 (Some 2) 10 10 "rgb(0, 0, 0)" 1 1)]
    [(0, RectangleCollider 0 0 10 10); (1, RectangleCollider 0 0 10 10);
     (2, RectangleCollider 0 0 10 10)].

(** A rectangle collider at [x = 2^53], where adding 1 is rounded away. *)
Definition far_box : State Empty_set :=
  state_of [] [(0, RectangleCollider 9007199254740992 0 1 1)].

(** A rectangle collider at the origin. *)
Definition near_box : State Empty_set :=
  state_of [] [(0, RectangleCollider 0 0 1 1)].

(** A rectangle actor and an actor made without collider
    ([new Actor()]). *)
Definition bare : State Empty_set :=
  state_of
    [(0, RectangleActor 0 0 (Some 0) 10 10 "rgb(0, 0, 0)" 1 1);
     (1, Actor 0 0 None)]
    [(0, RectangleCollider 0 0 10 10)].

(** Two rectangle actors at the same place, but the [x] of the first is
    NaN. *)
Definition lost : State Empty_set :=
  state_of
    [(0, RectangleActor PrimFloat.nan 0 (Some 0) 10 10 "rgb(0, 0, 0)" 1 1);
     (1, RectangleActor 0 0 (Some 1) 10 10 "rgb(0, 0, 0)" 1 1)]
    [(0, RectangleCollider 0 0 10 10); (1, RectangleCollider 0 0 10 10)].

(** * Properties *)

Section Basics.
Context {Shape : Type} {sub : ColliderSubclass Shape}.
Implicit Types (σ : State Shape) (a c : ref) (o : ActorObj) (g : ColliderObj Shape).

Lemma bind_normal {A B} (m : M Shape A) (f : A → M Shape B) σ x σ' :
  m σ = Normal x σ' → (m ≫= f) σ = f x σ'.
Proof. intros H. unfold mbind, M_bind. by rewrite H. Qed.

Lemma bind_throw {A B} (m : M Shape A) (f : A → M Shape B) σ e σ' :
  m σ = Throw e σ' → (m ≫= f) σ = Throw e σ'.
Proof. intros H. unfold mbind, M_bind. by rewrite H. Qed.

Lemma global_of_Some σ a g :
  global_of σ a = Some g ↔
  ∃ o c co, actor_heap σ !! a = Some o ∧ collider o = Some c ∧
            collider_heap σ !! c = Some co ∧
            translated co (Actor_x o) (Actor_y o) = Some g.
Proof.
  unfold global_of. split.
  - intros H. destruct (actor_heap σ !! a) as [o|]; [|done]. simpl in H.
    destruct (collider o) as [c|] eqn:Hc; [|done]. simpl in H.
    destruct (collider_heap σ !! c) as [co|] eqn:Hco; [|done]. simpl in H.
    by exists o, c, co.
  - intros (o & c & co & -> & Hc & Hco & Hg). simpl. rewrite Hc. simpl.
    rewrite Hco. done.
Qed.

(** [translate] on an object that has the method: one allocation. *)
Lemma translate_spec σ c co dx dy g :
  collider_heap σ !! c = Some co → translated co dx dy = Some g →
  translate c dx dy σ =
    Normal (fresh (dom (collider_heap σ)))
      (Build_State (actor_heap σ)
         (<[fresh (dom (collider_heap σ)) := g]> (collider_heap σ)) (calls σ)).
Proof.
  intros Hc Hg. unfold translate.
  rewrite (bind_normal _ _ σ co σ); [|unfold load_collider; by rewrite Hc].
  by rewrite Hg.
Qed.

Lemma fresh_collider σ : collider_heap σ !! fresh (dom (collider_heap σ)) = None.
Proof. apply not_elem_of_dom, is_fresh. Qed.

Lemma globalCollider_spec σ a g :
  global_of σ a = Some g →
  globalCollider a σ =
    Normal (fresh (dom (collider_heap σ)))
      (Build_State (actor_heap σ)
         (<[fresh (dom (collider_heap σ)) := g]> (collider_heap σ)) (calls σ)).
Proof.
  intros (o & c & co & Ho & Hc & Hco & Hg)%global_of_Some. unfold globalCollider.
  rewrite (bind_normal _ _ σ o σ); [|unfold load_actor; by rewrite Ho].
  rewrite Hc. by apply translate_spec with co.
Qed.

(** Allocating a collider changes no actor's global collider. *)
Lemma global_of_alloc σ a g g' :
  global_of σ a = Some g →
  global_of (Build_State (actor_heap σ)
               (<[fresh (dom (collider_heap σ)) := g']> (collider_heap σ)) (calls σ)) a
  = Some g.
Proof.
  intros (o & c & co & Ho & Hc & Hco & Hg)%global_of_Some.
  apply global_of_Some. exists o, c, co. simpl. split_and!; try done.
  rewrite lookup_insert_ne; [done|]. intros <-. by rewrite fresh_collider in Hco.
Qed.

(** The state after the first of the two [globalCollider] reads. *)
Lemma detectCollision_steps σ a1 a2 g1 g2 :
  global_of σ a1 = Some g1 →
  global_of (Build_State (actor_heap σ)
               (<[fresh (dom (collider_heap σ)) := g1]> (collider_heap σ)) (calls σ)) a2
    = Some g2 →
  detectCollision a1 a2 σ = Normal (dispatch g1 g2) (after_detect σ a1 a2 g1 g2).
Proof.
  intros H1 H2'. unfold detectCollision.
  rewrite (bind_normal _ _ _ _ _ (globalCollider_spec _ _ _ H1)).
  set (c1 := fresh (dom (collider_heap σ))) in *.
  set (σ1 := Build_State _ _ _) in *.
  rewrite (bind_normal _ _ _ _ _ (globalCollider_spec _ _ _ H2')).
  set (c2 := fresh (dom (collider_heap σ1))).
  set (σ2 := Build_State _ _ _).
  assert (Hc2 : collider_heap σ2 !! c2 = Some g2) by apply lookup_insert_eq.
  assert (Hc1 : collider_heap σ2 !! c1 = Some g1).
  { simpl. rewrite lookup_insert_ne; [apply lookup_insert_eq|].
    intros E. pose proof (fresh_collider σ1) as F. fold c2 in F. rewrite E in F.
    simpl in F. by rewrite lookup_insert_eq in F. }
  rewrite (bind_normal _ _ σ2 g1 σ2); [|unfold load_collider; by rewrite Hc1].
  rewrite (bind_normal _ _ σ2 g2 σ2); [|unfold load_collider; by rewrite Hc2].
  assert (Hr : (if String.eqb (Collider_type g1) "rectangle"
                   && String.eqb (Collider_type g2) "rectangle"
                then detectRectangleCollision c1 c2 else mret false) σ2
               = Normal (dispatch g1 g2) σ2).
  { unfold dispatch. destruct (_ && _); [|done]. unfold detectRectangleCollision.
    rewrite (bind_normal _ _ σ2 g1 σ2); [|unfold load_collider; by rewrite Hc1].
    rewrite (bind_normal _ _ σ2 g2 σ2); [|unfold load_collider; by rewrite Hc2].
    done. }
  rewrite (bind_normal _ _ _ _ _ Hr). done.
Qed.

Lemma detectCollision_spec σ a1 a2 g1 g2 :
  global_of σ a1 = Some g1 → global_of σ a2 = Some g2 →
  detectCollision a1 a2 σ = Normal (dispatch g1 g2) (after_detect σ a1 a2 g1 g2).
Proof.
  intros H1 H2. apply detectCollision_steps; [done|]. by apply global_of_alloc.
Qed.

Lemma update_spec σ a info o :
  actor_heap σ !! a = Some o →
  update a info σ =
    Normal tt (Build_State (<[a := updated info o]> (actor_heap σ)) (collider_heap σ)
                 (calls σ ++ [Call_update a])).
Proof.
  intros Ho. unfold update.
  erewrite (bind_normal (load_actor a));
    [|unfold load_actor; rewrite Ho; reflexivity].
  done.
Qed.

Lemma hit_spec σ a other o :
  actor_heap σ !! a = Some o →
  hit a other σ =
    Normal tt (Build_State (<[a := was_hit o]> (actor_heap σ)) (collider_heap σ)
                 (calls σ ++ [Call_hit a other])).
Proof.
  intros Ho. unfold hit.
  erewrite (bind_normal (load_actor a));
    [|unfold load_actor; rewrite Ho; reflexivity].
  done.
Qed.

End Basics.

Section Bodies.
Context {Shape : Type} {sub : ColliderSubclass Shape}.
Implicit Types (σ : State Shape) (a c : ref) (o : ActorObj) (g : ColliderObj Shape).

Lemma global_of_None_throws σ a :
  global_of σ a = None →
  ∃ σ', globalCollider a σ = Throw TypeError σ' ∧ σ' = σ.
Proof.
  intros H. exists σ. split; [|done]. unfold globalCollider, global_of in *.
  unfold mbind at 1, M_bind, load_actor.
  destruct (actor_heap σ !! a) as [o|]; [|done]. simpl in H.
  destruct (collider o) as [c|]; [|done]. simpl in H.
  unfold translate, mbind, M_bind, load_collider.
  destruct (collider_heap σ !! c) as [co|]; [|done]. simpl in H.
  by rewrite H.
Qed.

Lemma after_detect_colliders σ a1 a2 g1 g2 :
  collider_heap σ ⊆ collider_heap (after_detect σ a1 a2 g1 g2).
Proof.
  unfold after_detect. simpl.
  etrans; [apply insert_subseteq, not_elem_of_dom, is_fresh|].
  apply insert_subseteq, not_elem_of_dom, is_fresh.
Qed.

(** C8. [translate(dx, dy)] on a rectangle collider returns a new
    instance whose [x], [y] are the receiver's plus [dx], [dy], with the
    receiver's [width] and [height]; the receiver keeps its four fields,
    and so does every other object. *)
Theorem translate_returns_new_instance σ this x y width height dx dy :
  collider_heap σ !! this = Some (RectangleCollider x y width height) →
  ∃ new σ',
    translate this dx dy σ = Normal new σ' ∧
    collider_heap σ !! new = None ∧
    collider_heap σ' !! new
      = Some (RectangleCollider (x + dx)%float (y + dy)%float width height) ∧
    collider_heap σ' !! this = Some (RectangleCollider x y width height) ∧
    (∀ c, c ≠ new → collider_heap σ' !! c = collider_heap σ !! c) ∧
    actor_heap σ' = actor_heap σ.
Proof.
  intros Hthis. eexists _, _. split; [by eapply translate_spec|].
  pose proof (fresh_collider σ) as Hnew. simpl. split_and!; try done.
  - apply lookup_insert_eq.
  - rewrite lookup_insert_ne; [done|]. intros E. by rewrite E, Hthis in Hnew.
  - intros c Hc. by rewrite lookup_insert_ne.
Qed.

(** C9, as the code has it.  Translating twice adds the offsets one
    after the other, each sum rounded: the result is the receiver moved
    to [(x + a) + c], [(y + b) + d]; [translate(a + c, b + d)] moves it to
    [x + (a + c)], [y + (b + d)]; width and height are the receiver's in
    both.  So the two colliders are equal exactly when
    [(x + a) + c = x + (a + c)] and [(y + b) + d = y + (b + d)]. *)
Theorem translate_twice σ this x y width height (a b c d : num) :
  collider_heap σ !! this = Some (RectangleCollider x y width height) →
  result_obj ((t ← translate this a b; translate t c d) σ)
    = Some (RectangleCollider ((x + a) + c)%float ((y + b) + d)%float width height) ∧
  result_obj (translate this (a + c)%float (b + d)%float σ)
    = Some (RectangleCollider (x + (a + c))%float (y + (b + d))%float width height) ∧
  (result_obj ((t ← translate this a b; translate t c d) σ)
     = result_obj (translate this (a + c)%float (b + d)%float σ)
   ↔ ((x + a) + c = x + (a + c))%float ∧ ((y + b) + d = y + (b + d))%float).
Proof.
  intros Hthis.
  assert (H1 : result_obj ((t ← translate this a b; translate t c d) σ)
    = Some (RectangleCollider ((x + a) + c)%float ((y + b) + d)%float width height)).
  { rewrite (bind_normal _ _ _ _ _ (translate_spec σ this _ a b _ Hthis eq_refl)).
    erewrite translate_spec; [| apply lookup_insert_eq | done].
    simpl. apply lookup_insert_eq. }
  assert (H2 : result_obj (translate this (a + c)%float (b + d)%float σ)
    = Some (RectangleCollider (x + (a + c))%float (y + (b + d))%float width height)).
  { erewrite translate_spec; [| exact Hthis | done]. simpl. apply lookup_insert_eq. }
  split; [done|]. split; [done|]. rewrite H1, H2. split.
  - intros E. split.
    + exact (f_equal (λ o : option (ColliderObj Shape),
               match o with Some (RectangleCollider u _ _ _) => u | _ => x end) E).
    + exact (f_equal (λ o : option (ColliderObj Shape),
               match o with Some (RectangleCollider _ v _ _) => v | _ => y end) E).
  - by intros [-> ->].
Qed.

(** C6. In every state, the [globalCollider] getter of a body with a
    collider is [_collider.translate(x, y)] at the body's position in
    that state; in particular right after an [update] it is the
    translation by the position [update] has just written. *)
Theorem globalCollider_is_translate σ this o c :
  actor_heap σ !! this = Some o → collider o = Some c →
  globalCollider this σ = translate c (Actor_x o) (Actor_y o) σ ∧
  ∀ info,
    (update this info;; globalCollider this) σ
    = (update this info;;
       translate c (Actor_x (updated info o)) (Actor_y (updated info o))) σ.
Proof.
  intros Ho Hc.
  assert (G : ∀ σ0 o0, actor_heap σ0 !! this = Some o0 → collider o0 = Some c →
              globalCollider this σ0 = translate c (Actor_x o0) (Actor_y o0) σ0).
  { intros σ0 o0 H0 Hc0. unfold globalCollider.
    rewrite (bind_normal _ _ σ0 o0 σ0); [|unfold load_actor; by rewrite H0].
    by rewrite Hc0. }
  split; [by apply G|]. intros info.
  rewrite !(bind_normal _ _ _ _ _ (update_spec σ this info o Ho)).
  apply G; [apply lookup_insert_eq|]. by destruct o.
Qed.

(** C2. [update] on a rectangle actor adds the velocity to the
    position, then flips [_vx] exactly when the new [x] is below 0 or
    above the world's width, and [_vy] exactly when the new [y] is below
    0 or above the world's height; size and collider stay, the colour is
    reset, and no other actor changes. *)
Theorem update_moves_then_reflects σ this info x y (cl : option ref) width height color vx vy :
  actor_heap σ !! this = Some (RectangleActor x y cl width height color vx vy) →
  ∃ σ',
    update this info σ = Normal tt σ' ∧
    actor_heap σ' !! this =
      Some (RectangleActor (x + vx)%float (y + vy)%float cl width height "rgb(0, 0, 0)"
              (if PrimFloat.ltb (x + vx) 0 || PrimFloat.ltb (info_width info) (x + vx)
               then (- vx)%float else vx)
              (if PrimFloat.ltb (y + vy) 0 || PrimFloat.ltb (info_height info) (y + vy)
               then (- vy)%float else vy)) ∧
    (∀ a, a ≠ this → actor_heap σ' !! a = actor_heap σ !! a) ∧
    collider_heap σ' = collider_heap σ.
Proof.
  intros Ho. eexists. split; [by apply update_spec|].
  simpl. split_and!; [apply lookup_insert_eq| |done].
  intros a Ha. by rewrite lookup_insert_ne.
Qed.

End Bodies.

Section Detector.
Context {Shape : Type} {sub : ColliderSubclass Shape}.
Implicit Types (σ : State Shape) (a : ref) (g : ColliderObj Shape).

(** No number is below itself. *)
Lemma SFcompare_refl (s : spec_float) : SFcompare s s = Some Eq ∨ SFcompare s s = None.
Proof.
  destruct s as [[]|[]| |[] m e]; simpl; auto;
    rewrite Z.compare_refl, Pos.compare_cont_refl; auto.
Qed.

Lemma ltb_irrefl (x : num) : PrimFloat.ltb x x = false.
Proof.
  rewrite ltb_spec. unfold SFltb.
  by destruct (SFcompare_refl (Prim2SF x)) as [-> | ->].
Qed.

(** On two rectangles the dispatch is the overlap test, written out. *)
Lemma dispatch_rectangles x1 y1 w1 h1 x2 y2 w2 h2 :
  dispatch (Shape := Shape) (RectangleCollider x1 y1 w1 h1) (RectangleCollider x2 y2 w2 h2)
  = PrimFloat.ltb x2 (x1 + w1) && PrimFloat.ltb x1 (x2 + w2)
    && PrimFloat.ltb y2 (y1 + h1) && PrimFloat.ltb y1 (y2 + h2).
Proof.
  unfold dispatch, overlap. simpl.
  by destruct (PrimFloat.ltb x2 (x1 + w1)), (PrimFloat.ltb x1 (x2 + w2)).
Qed.

(** C1. When the global colliders of two bodies are rectangles,
    [detectCollision] returns the conjunction of the four strict
    comparisons [rect2.left < rect1.right], [rect1.left < rect2.right],
    [rect2.top < rect1.bottom], [rect1.top < rect2.bottom]; so it returns
    [false] as soon as an edge of one rectangle is the facing edge of
    the other. *)
Theorem detect_rectangles σ a1 a2 x1 y1 w1 h1 x2 y2 w2 h2 :
  global_of σ a1 = Some (RectangleCollider x1 y1 w1 h1) →
  global_of σ a2 = Some (RectangleCollider x2 y2 w2 h2) →
  ∃ σ' (result : bool),
    detectCollision a1 a2 σ = Normal result σ' ∧
    result = PrimFloat.ltb x2 (x1 + w1) && PrimFloat.ltb x1 (x2 + w2)
             && PrimFloat.ltb y2 (y1 + h1) && PrimFloat.ltb y1 (y2 + h2) ∧
    (x2 = (x1 + w1)%float ∨ x1 = (x2 + w2)%float ∨
     y2 = (y1 + h1)%float ∨ y1 = (y2 + h2)%float → result = false).
Proof.
  intros H1 H2. eexists _, _. split; [by apply detectCollision_spec|].
  split; [apply dispatch_rectangles|].
  rewrite dispatch_rectangles.
  intros [<-|[<-|[<-|<-]]]; rewrite ltb_irrefl;
    rewrite ?andb_false_r, ?andb_false_l; reflexivity.
Qed.

(** C7. When the two global colliders are not both tagged
    ['rectangle'], [detectCollision] returns [false] and does not
    throw. *)
Theorem detect_other_kinds σ a1 a2 g1 g2 :
  global_of σ a1 = Some g1 → global_of σ a2 = Some g2 →
  ¬ (Collider_type g1 = "rectangle"%string ∧ Collider_type g2 = "rectangle"%string) →
  ∃ σ', detectCollision a1 a2 σ = Normal false σ'.
Proof.
  intros H1 H2 Hk. eexists.
  rewrite (detectCollision_spec _ _ _ _ _ H1 H2). f_equal.
  unfold dispatch.
  destruct (String.eqb_spec (Collider_type g1) "rectangle") as [E1|];
    destruct (String.eqb_spec (Collider_type g2) "rectangle") as [E2|]; try done.
  by destruct Hk.
Qed.

Lemma placed_global σ a x y co :
  placed σ a x y co → global_of σ a = translated co x y.
Proof.
  intros (o & c & Ho & <- & <- & Hc & Hco). unfold global_of.
  rewrite Ho. simpl. rewrite Hc. simpl. by rewrite Hco.
Qed.

Lemma placed_alloc σ a x y co g :
  placed σ a x y co →
  placed (Build_State (actor_heap σ)
            (<[fresh (dom (collider_heap σ)) := g]> (collider_heap σ)) (calls σ)) a x y co.
Proof.
  intros (o & c & Ho & Hx & Hy & Hc & Hco). exists o, c. simpl. split_and!; try done.
  rewrite lookup_insert_ne; [done|]. intros <-. by rewrite fresh_collider in Hco.
Qed.

(** C10. [detectCollision] changes no actor and no existing collider
    (it only allocates the global colliders it reads), and what it
    returns is a function of the two bodies' positions and colliders
    alone: the dispatch on the two translated colliders, a boolean, when
    both colliders can be translated, and a [TypeError] otherwise. *)
Theorem detectCollision_pure σ a1 a2 :
  actor_heap (final (detectCollision a1 a2 σ)) = actor_heap σ ∧
  collider_heap σ ⊆ collider_heap (final (detectCollision a1 a2 σ)) ∧
  ∀ x1 y1 co1 x2 y2 co2,
    placed σ a1 x1 y1 co1 → placed σ a2 x2 y2 co2 →
    value_of (detectCollision a1 a2 σ) =
      match translated co1 x1 y1, translated co2 x2 y2 with
      | Some g1, Some g2 => inl (dispatch g1 g2)
      | _, _ => inr TypeError
      end.
Proof.
  split_and!.
  - destruct (global_of σ a1) as [g1|] eqn:H1.
    + pose proof (globalCollider_spec _ _ _ H1) as S1.
      set (σ1 := Build_State _ _ _) in S1.
      destruct (global_of σ1 a2) as [g2|] eqn:H2.
      * by rewrite (detectCollision_steps _ _ _ _ _ H1 H2).
      * destruct (global_of_None_throws _ _ H2) as (σ' & T & ->).
        unfold detectCollision. rewrite (bind_normal _ _ _ _ _ S1).
        by rewrite (bind_throw _ _ _ _ _ T).
    + destruct (global_of_None_throws _ _ H1) as (σ' & T & ->).
      unfold detectCollision. by rewrite (bind_throw _ _ _ _ _ T).
  - destruct (global_of σ a1) as [g1|] eqn:H1.
    + pose proof (globalCollider_spec _ _ _ H1) as S1.
      set (σ1 := Build_State _ _ _) in S1.
      assert (collider_heap σ ⊆ collider_heap σ1)
        by apply insert_subseteq, fresh_collider.
      destruct (global_of σ1 a2) as [g2|] eqn:H2.
      * rewrite (detectCollision_steps _ _ _ _ _ H1 H2). apply after_detect_colliders.
      * destruct (global_of_None_throws _ _ H2) as (σ' & T & ->).
        unfold detectCollision. rewrite (bind_normal _ _ _ _ _ S1).
        by rewrite (bind_throw _ _ _ _ _ T).
    + destruct (global_of_None_throws _ _ H1) as (σ' & T & ->).
      unfold detectCollision. by rewrite (bind_throw _ _ _ _ _ T).
  - intros x1 y1 co1 x2 y2 co2 P1 P2.
    pose proof (placed_global _ _ _ _ _ P1) as H1.
    destruct (translated co1 x1 y1) as [g1|].
    + pose proof (globalCollider_spec _ _ _ H1) as S1.
      pose proof (placed_global _ _ _ _ _ (placed_alloc _ _ _ _ _ g1 P2)) as H2.
      destruct (translated co2 x2 y2) as [g2|].
      * by rewrite (detectCollision_steps _ _ _ _ _ H1 H2).
      * destruct (global_of_None_throws _ _ H2) as (σ' & T & ->).
        unfold detectCollision. rewrite (bind_normal _ _ _ _ _ S1).
        by rewrite (bind_throw _ _ _ _ _ T).
    + destruct (global_of_None_throws _ _ H1) as (σ' & T & ->).
      unfold detectCollision. by rewrite (bind_throw _ _ _ _ _ T).
Qed.

End Detector.

(** ** The pairs of the sweep *)

Section Pairs.

Lemma flat_map_fmap {A B C} (f : A → B) (g : B → list C) (l : list A) :
  flat_map g (f <$> l) = flat_map (λ x, g (f x)) l.
Proof. induction l as [|x l IH]; csimpl; [done|]. by rewrite IH. Qed.

Lemma flat_map_flat_map {A B C} (f : A → list B) (g : B → list C) (l : list A) :
  flat_map g (flat_map f l) = flat_map (λ x, flat_map g (f x)) l.
Proof.
  induction l as [|x l IH]; simpl; [done|]. by rewrite flat_map_app, IH.
Qed.

Lemma list_prod_flat_map {A B} (l : list A) (k : list B) :
  list_prod l k = flat_map (λ x, pair x <$> k) l.
Proof. induction l as [|x l IH]; simpl; [done|]. by rewrite IH. Qed.

Lemma filter_flat_map {A B} (P : B → Prop) `{∀ x, Decision (P x)}
    (f : A → list B) (l : list A) :
  filter P (flat_map f l) = flat_map (λ x, filter P (f x)) l.
Proof.
  induction l as [|x l IH]; simpl; [done|]. by rewrite filter_app, IH.
Qed.

(** The indices after [i] in a run of consecutive indices. *)
Lemma filter_lt_seq i k m :
  filter (λ j, i < j) (seq k m) = seq (k `max` S i) (k + m - (k `max` S i)).
Proof.
  revert k. induction m as [|m IH]; intros k; simpl.
  - by replace (k + 0 - (k `max` S i)) with 0 by lia.
  - rewrite filter_cons. destruct (decide (i < k)) as [Hlt|Hge].
    + rewrite IH.
      replace (S k `max` S i) with (S k) by lia.
      replace (k `max` S i) with k by lia.
      replace (S k + m - S k) with m by lia.
      by replace (k + S m - k) with (S m) by lia.
    + rewrite IH.
      replace (S k `max` S i) with (S i) by lia.
      replace (k `max` S i) with (S i) by lia.
      by replace (S k + m - S i) with (k + S m - S i) by lia.
Qed.

Lemma filter_pair_lt i (l : list nat) :
  filter (λ p : nat * nat, p.1 < p.2) (pair i <$> l) = pair i <$> filter (λ j, i < j) l.
Proof.
  induction l as [|j l IH]; [done|]. rewrite fmap_cons, !filter_cons. simpl.
  destruct (decide (i < j)); by rewrite IH.
Qed.

Lemma index_pairs_rows n :
  index_pairs n = flat_map (λ i, pair i <$> seq (i + 1) (n - (i + 1))) (seq 0 n).
Proof.
  unfold index_pairs. rewrite list_prod_flat_map, filter_flat_map.
  apply flat_map_ext. intros i. rewrite filter_pair_lt, filter_lt_seq. simpl.
  by replace (i + 1) with (S i) by lia.
Qed.

(** The loops enumerate the pairs of the specification, in the same
    order. *)
Lemma index_pairs_loops n : index_pairs n = loop_pairs n.
Proof.
  rewrite index_pairs_rows. unfold loop_pairs. destruct n as [|n]; [done|].
  replace (S n - 1) with n by lia. rewrite seq_S, flat_map_app. simpl.
  replace (S n - (n + 1)) with 0 by lia. simpl. by rewrite app_nil_r.
Qed.

Lemma index_pairs_elem (n i j : nat) : (i, j) ∈ index_pairs n ↔ i < j < n.
Proof.
  unfold index_pairs. rewrite list_elem_of_filter, list_elem_of_In, in_prod_iff.
  rewrite !in_seq. simpl. lia.
Qed.

Lemma NoDup_list_prod {A B} (l : list A) (k : list B) :
  NoDup l → NoDup k → NoDup (list_prod l k).
Proof.
  intros Hl Hk. induction Hl as [|x l Hx Hl IH]; simpl; [constructor|].
  apply NoDup_app. split_and!; [|intros [y z]|done].
  - change (NoDup (pair x <$> k)). apply NoDup_fmap_2; [|done]. by intros ?? [= ->].
  - rewrite !list_elem_of_In, in_map_iff, in_prod_iff.
    intros (? & [= -> ->] & _) [Hy _]. by apply Hx, list_elem_of_In.
Qed.

Lemma index_pairs_NoDup n : NoDup (index_pairs n).
Proof.
  unfold index_pairs. apply NoDup_filter, NoDup_list_prod; apply NoDup_seq.
Qed.

Lemma rows_length (n k : nat) :
  k ≤ n →
  2 * length (flat_map (λ i, pair i <$> seq (i + 1) (n - (i + 1))) (seq 0 k)) + k * k + k
  = 2 * k * n.
Proof.
  induction k as [|k IH]; intros Hk; [done|].
  rewrite seq_S, flat_map_app, length_app. simpl.
  rewrite app_nil_r, length_fmap, length_seq. specialize (IH ltac:(lia)). nia.
Qed.

Lemma index_pairs_length n : length (index_pairs n) = n * (n - 1) / 2.
Proof.
  rewrite index_pairs_rows. pose proof (rows_length n n ltac:(lia)) as H.
  set (m := length _) in *. apply Nat.div_unique_exact; [done|].
  destruct n; nia.
Qed.

End Pairs.

(** ** The sweep *)

Section Sweep.
Context {Shape : Type} {sub : ColliderSubclass Shape}.
Implicit Types (σ : State Shape) (a : ref) (o : ActorObj) (g : ColliderObj Shape)
  (new : list (Call Shape)).

Lemma was_hit_idemp o : was_hit (was_hit o) = was_hit o.
Proof. by destruct o. Qed.

Lemma was_hit_place o :
  Actor_x (was_hit o) = Actor_x o ∧ Actor_y (was_hit o) = Actor_y o ∧
  collider (was_hit o) = collider o.
Proof. by destruct o. Qed.

Lemma hit_by_app new1 new2 a : hit_by (new1 ++ new2) a = hit_by new1 a || hit_by new2 a.
Proof. apply existsb_app. Qed.

Lemma hit_by_elem new a : hit_by new a = true ↔ ∃ other, Call_hit a other ∈ new.
Proof.
  unfold hit_by. rewrite existsb_exists. split.
  - intros ([| |self other] & Hin & Heq); try done.
    apply Nat.eqb_eq in Heq as ->. exists other. by apply list_elem_of_In.
  - intros (other & Hin). exists (Call_hit a other).
    split; [by apply list_elem_of_In|]. apply Nat.eqb_refl.
Qed.

Lemma swept_refl σ : swept σ [] σ.
Proof.
  split_and!; [by rewrite app_nil_r|done|]. intros a. simpl.
  by destruct (actor_heap σ !! a).
Qed.

Lemma swept_global σ0 new σ a g :
  swept σ0 new σ → global_of σ0 a = Some g → global_of σ a = Some g.
Proof.
  intros (_ & Hc & Ha) (o & c & co & Ho & Hoc & Hco & Hg)%global_of_Some.
  apply global_of_Some. specialize (Ha a). rewrite Ho in Ha. simpl in Ha.
  destruct (was_hit_place o) as (Ex & Ey & Ec).
  eexists _, c, co. split; [exact Ha|].
  split_and!; [| by eapply lookup_weaken |]; by destruct (hit_by new a); simpl;
    rewrite ?Ex, ?Ey, ?Ec.
Qed.

Lemma swept_detect σ0 new σ a1 a2 g1 g2 :
  swept σ0 new σ →
  swept σ0 (new ++ [Call_detect a1 a2 g1 g2 (dispatch g1 g2)]) (after_detect σ a1 a2 g1 g2).
Proof.
  intros (Hl & Hc & Ha). split_and!.
  - simpl. by rewrite Hl, app_assoc.
  - etrans; [exact Hc|]. apply after_detect_colliders.
  - intros a. simpl. rewrite hit_by_app. simpl. by rewrite orb_false_r.
Qed.

Lemma swept_hit σ0 new σ a other o :
  swept σ0 new σ → actor_heap σ !! a = Some o →
  swept σ0 (new ++ [Call_hit a other])
    (Build_State (<[a := was_hit o]> (actor_heap σ)) (collider_heap σ)
       (calls σ ++ [Call_hit a other])).
Proof.
  intros (Hl & Hc & Ha) Ho. split_and!.
  - simpl. by rewrite Hl, app_assoc.
  - done.
  - intros a'. simpl. rewrite hit_by_app. simpl. rewrite orb_false_r.
    destruct (decide (a' = a)) as [->|Hne].
    + rewrite lookup_insert_eq, Nat.eqb_refl, orb_true_r.
      specialize (Ha a). rewrite Ho in Ha.
      destruct (actor_heap σ0 !! a) as [o0|]; [|done]. simpl in *.
      injection Ha as ->. destruct (hit_by new a); [|done].
      by rewrite was_hit_idemp.
    + rewrite lookup_insert_ne by done.
      destruct (Nat.eqb_spec a a') as [->|_]; [done|]. by rewrite orb_false_r.
Qed.

Lemma swept_actor σ0 new σ a g :
  swept σ0 new σ → global_of σ0 a = Some g → is_Some (actor_heap σ !! a).
Proof.
  intros Hs Hg. apply (swept_global _ _ _ _ _ Hs) in Hg.
  apply global_of_Some in Hg as (o & _ & _ & Ho & _). by exists o.
Qed.

(** One pair of the sweep. *)
Lemma hitTest_pair_spec w σ0 new σ (i j : nat) a1 a2 :
  _actors w !! i = Some a1 → _actors w !! j = Some a2 →
  is_Some (global_of σ0 a1) → is_Some (global_of σ0 a2) →
  swept σ0 new σ →
  ∃ σ', hitTest_pair w i j σ = Normal tt σ' ∧
        swept σ0 (new ++ index_pair_calls σ0 (_actors w) (i, j)) σ'.
Proof.
  intros Hi Hj [g1 H1] [g2 H2] Hs.
  unfold hitTest_pair, index_pair_calls, pair_calls, at_index. simpl.
  rewrite Hi, Hj, H1, H2.
  rewrite (bind_normal _ _ σ a1 σ eq_refl), (bind_normal _ _ σ a2 σ eq_refl).
  pose proof (detectCollision_spec σ a1 a2 g1 g2
                (swept_global _ _ _ _ _ Hs H1) (swept_global _ _ _ _ _ Hs H2)) as Hd.
  rewrite (bind_normal _ _ _ _ _ Hd).
  pose proof (swept_detect σ0 new σ a1 a2 g1 g2 Hs) as Hs1.
  destruct (dispatch g1 g2).
  - destruct (swept_actor _ _ _ _ _ Hs1 H1) as [o1 Ho1].
    pose proof (hit_spec _ a1 a2 o1 Ho1) as Hh1.
    pose proof (swept_hit _ _ _ a1 a2 o1 Hs1 Ho1) as Hs2.
    destruct (swept_actor _ _ _ _ _ Hs2 H2) as [o2 Ho2].
    pose proof (hit_spec _ a2 a1 o2 Ho2) as Hh2.
    pose proof (swept_hit _ _ _ a2 a1 o2 Hs2 Ho2) as Hs3.
    eexists. split.
    + rewrite (bind_normal _ _ _ _ _ Hh1). exact Hh2.
    + by rewrite <- !app_assoc in Hs3.
  - eexists. split; [done|]. exact Hs1.
Qed.

(** A counting loop whose body appends [f k] to the log at index [k]. *)
Lemma for_loop_spec (I : list (Call Shape) → State Shape → Prop)
    (f : nat → list (Call Shape)) (body : nat → M Shape unit) (n i : nat) :
  (∀ k new σ, i ≤ k < i + n → I new σ →
     ∃ σ', body k σ = Normal tt σ' ∧ I (new ++ f k) σ') →
  ∀ new σ, I new σ →
    ∃ σ', for_loop n i body σ = Normal tt σ' ∧ I (new ++ flat_map f (seq i n)) σ'.
Proof.
  revert i. induction n as [|n IH]; intros i Hbody new σ HI; simpl.
  - exists σ. by rewrite app_nil_r.
  - destruct (Hbody i new σ ltac:(lia) HI) as (σ1 & Hb & HI1).
    destruct (IH (S i) (λ k new' σ' Hk, Hbody k new' σ' ltac:(lia)) _ _ HI1)
      as (σ2 & Hl & HI2).
    exists σ2. split.
    + by rewrite (bind_normal _ _ _ _ _ Hb).
    + by rewrite app_assoc.
Qed.

Lemma hitTest_spec w σ0 :
  ready σ0 (_actors w) →
  ∃ σ', _hitTest w σ0 = Normal tt σ' ∧ swept σ0 (sweep_calls σ0 (_actors w)) σ'.
Proof.
  intros Hready. unfold _hitTest, for_range, sweep_calls.
  rewrite index_pairs_loops. unfold loop_pairs. rewrite flat_map_flat_map.
  set (n := length (_actors w)).
  set (row := λ i, flat_map (index_pair_calls σ0 (_actors w))
                     (pair i <$> seq (i + 1) (n - (i + 1)))).
  set (inner := λ i, for_loop (n - (i + 1)) (i + 1) (λ j, hitTest_pair w i j)).
  assert (Hinner : ∀ i new σ, 0 ≤ i < 0 + (n - 1 - 0) → swept σ0 new σ →
            ∃ σ', inner i σ = Normal tt σ' ∧ swept σ0 (new ++ row i) σ').
  { intros i new σ Hi Hs. unfold row, inner. rewrite flat_map_fmap.
    apply (for_loop_spec (swept σ0)
             (λ j, index_pair_calls σ0 (_actors w) (i, j))); [|done].
    intros j new' σ1 Hj Hs1.
    destruct (lookup_lt_is_Some_2 (_actors w) i ltac:(fold n; lia)) as [a1 Hi1].
    destruct (lookup_lt_is_Some_2 (_actors w) j ltac:(fold n; lia)) as [a2 Hj2].
    apply hitTest_pair_spec with a1 a2; try done.
    - apply Hready. by eapply list_elem_of_lookup_2.
    - apply Hready. by eapply list_elem_of_lookup_2. }
  destruct (for_loop_spec (swept σ0) row inner (n - 1 - 0) 0 Hinner [] σ0
              (swept_refl σ0)) as (σ' & Hrun & Hs).
  exists σ'. split; [exact Hrun|].
  by replace (n - 1 - 0) with (n - 1) in Hs by lia.
Qed.

End Sweep.

(** ** The motion pass *)

Section Motion.
Context {Shape : Type} {sub : ColliderSubclass Shape}.
Implicit Types (σ : State Shape) (a : ref) (o : ActorObj) (g : ColliderObj Shape).

Lemma updated_collider info o : collider (updated info o) = collider o.
Proof. by destruct o. Qed.

Lemma iter_updated_collider info (k : nat) o :
  collider (Nat.iter k (updated info) o) = collider o.
Proof. induction k as [|k IH]; simpl; [done|]. by rewrite updated_collider. Qed.

Lemma translated_is_Some (co : ColliderObj Shape) (dx dy dx' dy' : num) :
  is_Some (translated co dx dy) → is_Some (translated co dx' dy').
Proof. by destruct co. Qed.

Lemma moved_refl info σ : moved info σ [] σ.
Proof.
  split_and!; [by rewrite app_nil_r|done|]. intros a. simpl.
  by destruct (actor_heap σ !! a).
Qed.

Lemma moved_update info σ0 done σ a :
  moved info σ0 done σ → is_Some (actor_heap σ0 !! a) →
  ∃ σ', update a info σ = Normal tt σ' ∧ moved info σ0 (done ++ [a]) σ'.
Proof.
  intros (Hl & Hc & Ha) [o0 Ho0].
  pose proof (Ha a) as Hcur. rewrite Ho0 in Hcur. simpl in Hcur.
  eexists. split; [by apply update_spec|]. split_and!; simpl.
  - by rewrite Hl, fmap_app, app_assoc.
  - done.
  - intros a'. rewrite count_occ_app. simpl.
    destruct (Nat.eq_dec a a') as [<-|Hne].
    + rewrite lookup_insert_eq, Ho0. simpl. by rewrite Nat.add_1_r.
    + rewrite lookup_insert_ne by done. by rewrite Nat.add_0_r.
Qed.

Lemma forEach_update_spec info σ0 (l : list ref) :
  (∀ a, a ∈ l → is_Some (actor_heap σ0 !! a)) →
  ∀ done σ, moved info σ0 done σ →
    ∃ σ', forEach l (λ a, update a info) σ = Normal tt σ' ∧ moved info σ0 (done ++ l) σ'.
Proof.
  induction l as [|a l IH]; intros Hl done σ Hm; simpl.
  - exists σ. by rewrite app_nil_r.
  - destruct (moved_update _ _ _ _ a Hm) as (σ1 & Hu & Hm1); [apply Hl; left|].
    destruct (IH (λ b Hb, Hl b ltac:(by right)) _ _ Hm1) as (σ2 & Hf & Hm2).
    exists σ2. split; [by rewrite (bind_normal _ _ _ _ _ Hu)|].
    by rewrite <- app_assoc in Hm2.
Qed.

Lemma ready_actor σ (l : list ref) a : ready σ l → a ∈ l → is_Some (actor_heap σ !! a).
Proof.
  intros Hr Ha. destruct (Hr a Ha) as [g Hg].
  apply global_of_Some in Hg as (o & _ & _ & Ho & _). by exists o.
Qed.

Lemma update_all_spec w σ :
  ready σ (_actors w) →
  ∃ σ1, update_all w σ = Normal tt σ1 ∧
        moved {| info_width := _width w; info_height := _height w |} σ (_actors w) σ1.
Proof.
  intros Hr. unfold update_all.
  apply (forEach_update_spec _ σ (_actors w)) with (done := []).
  - intros a Ha. by eapply ready_actor.
  - apply moved_refl.
Qed.

Lemma moved_ready info σ0 done σ (l : list ref) :
  moved info σ0 done σ → ready σ0 l → ready σ l.
Proof.
  intros (_ & Hc & Ha) Hr a Hin.
  destruct (Hr a Hin) as [g (o & c & co & Ho & Hoc & Hco & Hg)%global_of_Some].
  specialize (Ha a). rewrite Ho in Ha. simpl in Ha.
  destruct (translated_is_Some co (Actor_x o) (Actor_y o)
              (Actor_x (Nat.iter (count_occ Nat.eq_dec done a) (updated info) o))
              (Actor_y (Nat.iter (count_occ Nat.eq_dec done a) (updated info) o)))
    as [g' Hg']; [by exists g|].
  exists g'. apply global_of_Some. eexists _, c, co. split; [exact Ha|].
  split_and!; [by rewrite iter_updated_collider|by rewrite Hc|done].
Qed.

(** Every actor of the list was updated at least once: its colour was
    reset. *)
Lemma moved_color info σ0 (l : list ref) σ a col :
  moved info σ0 l σ → a ∈ l → color_of σ a = Some col → col = "rgb(0, 0, 0)"%string.
Proof.
  intros (_ & _ & Ha) Hin. unfold color_of. rewrite (Ha a).
  apply list_elem_of_In, (count_occ_In Nat.eq_dec) in Hin.
  destruct (count_occ Nat.eq_dec l a) as [|k]; [lia|].
  destruct (actor_heap σ0 !! a) as [o|]; [|done]. simpl.
  destruct (Nat.iter k (updated info) o); simpl; [done|]. by intros [= <-].
Qed.

End Motion.

(** ** The world *)

Section Worlds.
Context {Shape : Type} {sub : ColliderSubclass Shape}.
Implicit Types (σ : State Shape) (a : ref) (o : ActorObj) (g : ColliderObj Shape).

Lemma detect_args_app (l1 l2 : list (Call Shape)) :
  detect_args (l1 ++ l2) = detect_args l1 ++ detect_args l2.
Proof. apply omap_app. Qed.

Lemma detect_args_pair σ a1 a2 :
  is_Some (global_of σ a1) → is_Some (global_of σ a2) →
  detect_args (pair_calls σ a1 a2) = [(a1, a2)].
Proof.
  intros [g1 H1] [g2 H2]. unfold pair_calls. rewrite H1, H2.
  by destruct (dispatch g1 g2).
Qed.

Lemma detect_args_pairs σ (actors : list ref) (l : list (nat * nat)) :
  ready σ actors →
  (∀ p, p ∈ l → p.1 < length actors ∧ p.2 < length actors) →
  detect_args (flat_map (index_pair_calls σ actors) l)
  = (λ p, (actors !!! p.1, actors !!! p.2)) <$> l.
Proof.
  intros Hr. induction l as [|p l IH]; intros Hl; [done|].
  rewrite fmap_cons. simpl flat_map.
  rewrite detect_args_app, IH by (intros q Hq; apply Hl; by right).
  destruct (Hl p ltac:(left)) as [H1 H2].
  apply lookup_lt_is_Some_2 in H1 as [a1 H1], H2 as [a2 H2].
  unfold index_pair_calls. rewrite H1, H2.
  rewrite (list_lookup_total_correct _ _ _ H1), (list_lookup_total_correct _ _ _ H2).
  rewrite detect_args_pair; [done|apply Hr; by eapply list_elem_of_lookup_2..].
Qed.

Lemma pair_calls_no_update σ a1 a2 c :
  c ∈ pair_calls σ a1 a2 → is_update c = false.
Proof.
  unfold pair_calls. destruct (global_of σ a1) as [g1|]; [|by intros ?%elem_of_nil].
  destruct (global_of σ a2) as [g2|]; [|by intros ?%elem_of_nil].
  destruct (dispatch g1 g2); rewrite !elem_of_cons, ?elem_of_nil;
    intros H; by destruct_or!; subst.
Qed.

Lemma sweep_calls_elem σ (actors : list ref) c :
  c ∈ sweep_calls σ actors →
  ∃ i j a1 a2, i < j ∧ actors !! i = Some a1 ∧ actors !! j = Some a2 ∧
               c ∈ pair_calls σ a1 a2.
Proof.
  unfold sweep_calls. rewrite list_elem_of_In, in_flat_map.
  intros ([i j] & Hp%list_elem_of_In%index_pairs_elem & Hc%list_elem_of_In).
  unfold index_pair_calls in Hc. simpl in Hc.
  destruct (actors !! i) as [a1|] eqn:Hi; [|by apply elem_of_nil in Hc].
  destruct (actors !! j) as [a2|] eqn:Hj; [|by apply elem_of_nil in Hc].
  exists i, j, a1, a2. split_and!; [lia|done..].
Qed.

Lemma sweep_calls_no_update σ (actors : list ref) c :
  c ∈ sweep_calls σ actors → is_update c = false.
Proof.
  intros (i & j & a1 & a2 & _ & _ & _ & Hc)%sweep_calls_elem.
  by eapply pair_calls_no_update.
Qed.

Lemma sweep_calls_detect σ (actors : list ref) a1 a2 c1 c2 b :
  Call_detect a1 a2 c1 c2 b ∈ sweep_calls σ actors →
  global_of σ a1 = Some c1 ∧ global_of σ a2 = Some c2 ∧ b = dispatch c1 c2.
Proof.
  intros (i & j & b1 & b2 & _ & _ & _ & Hc)%sweep_calls_elem.
  unfold pair_calls in Hc.
  destruct (global_of σ b1) as [g1|] eqn:H1; [|by apply elem_of_nil in Hc].
  destruct (global_of σ b2) as [g2|] eqn:H2; [|by apply elem_of_nil in Hc].
  destruct (dispatch g1 g2) eqn:Hd; rewrite !elem_of_cons, ?elem_of_nil in Hc;
    destruct_or!; try done; by injection Hc as -> -> -> -> ->.
Qed.

(** C3. One sweep over [n] bodies calls the detector on the index pairs
    [(i, j)] with [i < j < n], each once, in the order of the two loops:
    there are [n (n - 1) / 2] of them and none has [i = j]; after each
    call that reports an overlap come [bodies[i].hit(bodies[j])] and then
    [bodies[j].hit(bodies[i])], and nothing else is called.  When no body
    occurs twice in the world, the two bodies of a detector call are
    different objects. *)
Theorem sweep_visits_every_pair_once w σ :
  ready σ (_actors w) →
  ∃ σ',
    _hitTest w σ = Normal tt σ' ∧
    calls σ' = calls σ ++ sweep_calls σ (_actors w) ∧
    detect_args (sweep_calls σ (_actors w))
      = (λ p, (_actors w !!! p.1, _actors w !!! p.2)) <$> index_pairs (length (_actors w)) ∧
    length (detect_args (sweep_calls σ (_actors w)))
      = length (_actors w) * (length (_actors w) - 1) / 2 ∧
    (∀ i j : nat, (i, j) ∈ index_pairs (length (_actors w)) ↔ i < j < length (_actors w)) ∧
    NoDup (index_pairs (length (_actors w))) ∧
    (NoDup (_actors w) →
     ∀ a1 a2, (a1, a2) ∈ detect_args (sweep_calls σ (_actors w)) → a1 ≠ a2).
Proof.
  intros Hr. destruct (hitTest_spec w σ Hr) as (σ' & Hrun & Hl & _ & _).
  assert (Hargs : detect_args (sweep_calls σ (_actors w))
      = (λ p, (_actors w !!! p.1, _actors w !!! p.2)) <$> index_pairs (length (_actors w))).
  { apply detect_args_pairs; [done|]. intros [i j] Hp%index_pairs_elem. simpl. lia. }
  exists σ'. split_and!; try done.
  - by rewrite Hargs, length_fmap, index_pairs_length.
  - apply index_pairs_elem.
  - apply index_pairs_NoDup.
  - intros Hnd a1 a2. rewrite Hargs, list_elem_of_fmap.
    intros ([i j] & [= -> ->] & Hp%index_pairs_elem). simpl. intros E.
    destruct (lookup_lt_is_Some_2 (_actors w) i ltac:(lia)) as [b1 H1].
    destruct (lookup_lt_is_Some_2 (_actors w) j ltac:(lia)) as [b2 H2].
    rewrite (list_lookup_total_correct _ _ _ H1), (list_lookup_total_correct _ _ _ H2) in E.
    subst b2. pose proof (NoDup_lookup _ _ _ _ Hnd H1 H2). lia.
Qed.

Lemma World_update_spec w σ :
  ready σ (_actors w) →
  ∃ σ1 σ',
    update_all w σ = Normal tt σ1 ∧
    _hitTest w σ1 = Normal tt σ' ∧
    World_update w σ = Normal tt σ' ∧
    moved {| info_width := _width w; info_height := _height w |} σ (_actors w) σ1 ∧
    swept σ1 (sweep_calls σ1 (_actors w)) σ'.
Proof.
  intros Hr. destruct (update_all_spec w σ Hr) as (σ1 & Hu & Hm).
  pose proof (moved_ready _ _ _ _ _ Hm Hr) as Hr1.
  destruct (hitTest_spec w σ1 Hr1) as (σ' & Hrun & Hs).
  exists σ1, σ'. split_and!; try done.
  unfold World_update. by rewrite (bind_normal _ _ _ _ _ Hu).
Qed.

(** C4. [World.update] first updates every body, in order, and only
    then sweeps: the log is the [update] calls followed by the calls of
    the sweep, no [update] is called during the sweep, and each detector
    call of the sweep read, for both bodies, the global collider the
    body has after the whole motion pass (which is also the one it has
    when [World.update] returns). *)
Theorem motion_before_detection w σ :
  ready σ (_actors w) →
  ∃ σ1 σ',
    update_all w σ = Normal tt σ1 ∧
    _hitTest w σ1 = Normal tt σ' ∧
    World_update w σ = Normal tt σ' ∧
    moved {| info_width := _width w; info_height := _height w |} σ (_actors w) σ1 ∧
    calls σ' = calls σ ++ (Call_update <$> _actors w) ++ sweep_calls σ1 (_actors w) ∧
    (∀ c, c ∈ sweep_calls σ1 (_actors w) → is_update c = false) ∧
    ∀ a1 a2 c1 c2 b,
      Call_detect a1 a2 c1 c2 b ∈ sweep_calls σ1 (_actors w) →
      global_of σ1 a1 = Some c1 ∧ global_of σ1 a2 = Some c2 ∧
      global_of σ' a1 = Some c1 ∧ global_of σ' a2 = Some c2.
Proof.
  intros Hr. destruct (World_update_spec w σ Hr) as (σ1 & σ' & Hu & Hrun & HW & Hm & Hs).
  exists σ1, σ'. split_and!; try done.
  - destruct Hs as (-> & _). destruct Hm as (-> & _). by rewrite app_assoc.
  - apply sweep_calls_no_update.
  - intros a1 a2 c1 c2 b (H1 & H2 & _)%sweep_calls_detect.
    split_and!; try done; by eapply swept_global.
Qed.

(** C5. The colour of a rectangle body is one of two values: [update]
    sets it to black, [hit] sets it to red; so when [World.update]
    returns, a body of the world is red exactly when [hit] was called on
    it during the sweep of that call, and black otherwise. *)
Theorem collision_flag w σ :
  ready σ (_actors w) →
  (∀ σ0 a info col, color_of σ0 a = Some col →
     color_of (final (update a info σ0)) a = Some "rgb(0, 0, 0)"%string) ∧
  (∀ σ0 a other col, color_of σ0 a = Some col →
     color_of (final (hit a other σ0)) a = Some "rgb(255, 0, 0)"%string) ∧
  ∃ σ' sweep,
    World_update w σ = Normal tt σ' ∧
    calls σ' = calls σ ++ (Call_update <$> _actors w) ++ sweep ∧
    (∀ c, c ∈ sweep → is_update c = false) ∧
    ∀ a col, a ∈ _actors w → color_of σ' a = Some col →
      (col = "rgb(255, 0, 0)"%string ↔ ∃ other, Call_hit a other ∈ sweep) ∧
      (col = "rgb(0, 0, 0)"%string ↔ ¬ ∃ other, Call_hit a other ∈ sweep).
Proof.
  intros Hr. split_and!.
  - intros σ0 a info col. unfold color_of.
    destruct (actor_heap σ0 !! a) as [o|] eqn:Ho; [|done].
    rewrite (update_spec _ _ info _ Ho). simpl. rewrite lookup_insert_eq.
    by destruct o.
  - intros σ0 a other col. unfold color_of.
    destruct (actor_heap σ0 !! a) as [o|] eqn:Ho; [|done].
    rewrite (hit_spec _ _ other _ Ho). simpl. rewrite lookup_insert_eq.
    by destruct o.
  - destruct (World_update_spec w σ Hr)
      as (σ1 & σ' & Hu & Hrun & HW & Hm & Hl & _ & Ha).
    exists σ', (sweep_calls σ1 (_actors w)). split_and!; try done.
    { rewrite Hl. destruct Hm as (-> & _). by rewrite app_assoc. }
    { apply sweep_calls_no_update. }
    intros a col Hin Hcol. rewrite <- hit_by_elem.
    unfold color_of in Hcol. rewrite (Ha a) in Hcol.
    pose proof (λ c, moved_color _ _ _ _ a c Hm Hin) as Hblack.
    unfold color_of in Hblack.
    destruct (actor_heap σ1 !! a) as [o1|]; [|done]. simpl in Hcol.
    destruct o1 as [|x y c wd ht col1 vx vy]; [by destruct (hit_by _ a)|].
    specialize (Hblack col1 eq_refl). subst col1.
    destruct (hit_by (sweep_calls σ1 (_actors w)) a); simpl in Hcol;
      injection Hcol as <-; split; split; try done; by intros [].
Qed.

End Worlds.

(** * The properties on the sample objects *)

Lemma ready_three_actors (σ : State Empty_set) :
  is_Some (global_of σ 0) → is_Some (global_of σ 1) → is_Some (global_of σ 2) →
  ready σ [0; 1; 2].
Proof.
  intros H0 H1 H2 a Ha.
  repeat (apply elem_of_cons in Ha as [->|Ha]; [done|]). by apply elem_of_nil in Ha.
Qed.

Lemma ready_three : ready three [0; 1; 2].
Proof. apply ready_three_actors; by eexists. Qed.

Lemma ready_crowded : ready crowded [0; 1; 2].
Proof. apply ready_three_actors; by eexists. Qed.

(** Two 10x10 rectangles at (0,0) and (10,0) share an edge and do not
    collide. *)
Lemma detect_rectangles_touching :
  ∃ σ', detectCollision 0 1 touching = Normal false σ'.
Proof.
  destruct (detect_rectangles touching 0 1 0 0 10 10 10 0 10 10 eq_refl eq_refl)
    as (σ' & result & Hrun & Hresult & _).
  exists σ'. rewrite Hrun, Hresult. reflexivity.
Defined.

(** A body at [x = -1] with [vx = -3] in a world of width 500 is at
    [x = -4] with [vx = 3] after one [update]. *)
Lemma update_leaving :
  ∃ σ',
    update 0 {| info_width := 500; info_height := 500 |} leaving = Normal tt σ' ∧
    actor_heap σ' !! 0 = Some (RectangleActor (-4) 22 (Some 0) 10 10 "rgb(0, 0, 0)" 3 2).
Proof.
  destruct (update_moves_then_reflects leaving 0
              {| info_width := 500; info_height := 500 |}
              (-1) 20 (Some 0) 10 10 "rgb(255, 0, 0)" (-3) 2 eq_refl)
    as (σ' & Hrun & Hobj & _).
  exists σ'. split; [exact Hrun | exact Hobj].
Defined.

(** The sweep over three bodies of which the first two overlap. *)
Lemma sweep_crowded :
  ∃ σ',
    _hitTest (world500 [0; 1; 2]) crowded = Normal tt σ' ∧
    calls σ' =
      [Call_detect 0 1 (RectangleCollider 0 0 10 10) (RectangleCollider 5 5 10 10) true;
       Call_hit 0 1; Call_hit 1 0;
       Call_detect 0 2 (RectangleCollider 0 0 10 10) (RectangleCollider 100 100 10 10) false;
       Call_detect 1 2 (RectangleCollider 5 5 10 10) (RectangleCollider 100 100 10 10) false] ∧
    detect_args (sweep_calls crowded [0; 1; 2]) = [(0, 1); (0, 2); (1, 2)].
Proof.
  destruct (sweep_visits_every_pair_once (world500 [0; 1; 2]) crowded ready_crowded)
    as (σ' & Hrun & Hcalls & Hargs & _).
  exists σ'. split; [exact Hrun|]. split; [exact Hcalls | exact Hargs].
Defined.

(** [World.update] on three bodies. *)
Lemma motion_before_detection_three :
  ∃ σ1 σ',
    update_all (world500 [0; 1; 2]) three = Normal tt σ1 ∧
    World_update (world500 [0; 1; 2]) three = Normal tt σ' ∧
    calls σ' = calls three ++ (Call_update <$> [0; 1; 2]) ++ sweep_calls σ1 [0; 1; 2] ∧
    ∀ a1 a2 c1 c2 b,
      Call_detect a1 a2 c1 c2 b ∈ sweep_calls σ1 [0; 1; 2] →
      global_of σ1 a1 = Some c1 ∧ global_of σ1 a2 = Some c2.
Proof.
  destruct (motion_before_detection (world500 [0; 1; 2]) three ready_three)
    as (σ1 & σ' & Hu & _ & HW & _ & Hcalls & _ & Hdet).
  exists σ1, σ'. split; [exact Hu|]. split; [exact HW|]. split; [exact Hcalls|].
  intros a1 a2 c1 c2 b Hin. destruct (Hdet a1 a2 c1 c2 b Hin) as (H1 & H2 & _).
  split; [exact H1 | exact H2].
Defined.

Lemma collision_flag_three :
  ∃ σ' sweep,
    World_update (world500 [0; 1; 2]) three = Normal tt σ' ∧
    calls σ' = calls three ++ (Call_update <$> [0; 1; 2]) ++ sweep ∧
    ∀ a col, a ∈ [0; 1; 2] → color_of σ' a = Some col →
      (col = "rgb(255, 0, 0)"%string ↔ ∃ other, Call_hit a other ∈ sweep).
Proof.
  destruct (collision_flag (world500 [0; 1; 2]) three ready_three)
    as (_ & _ & σ' & sweep & HW & Hcalls & _ & Hcol).
  exists σ', sweep. split; [exact HW|]. split; [exact Hcalls|].
  intros a col Hin Hc. destruct (Hcol a col Hin Hc) as [Hred _]. exact Hred.
Defined.

(** What the log and the colours are in this run: the first two bodies
    are 5 apart before the motion pass and overlap after it. *)
Example world_update_three :
  calls (final (World_update (world500 [0; 1; 2]) three)) =
    [Call_update 0; Call_update 1; Call_update 2;
     Call_detect 0 1 (RectangleCollider 4 0 10 10) (RectangleCollider 11 0 10 10) true;
     Call_hit 0 1; Call_hit 1 0;
     Call_detect 0 2 (RectangleCollider 4 0 10 10) (RectangleCollider 101 101 10 10) false;
     Call_detect 1 2 (RectangleCollider 11 0 10 10) (RectangleCollider 101 101 10 10) false] ∧
  color_of (final (World_update (world500 [0; 1; 2]) three)) <$> [0; 1; 2] =
    [Some "rgb(255, 0, 0)"%string; Some "rgb(255, 0, 0)"%string; Some "rgb(0, 0, 0)"%string].
Proof. split; vm_compute; reflexivity. Qed.

(** [addActor] does not look for duplicates.  A body pushed twice is
    updated twice in a frame, and the sweep pairs it with itself: index
    pair (0, 1) is the same object on both sides. *)
Example same_body_twice :
  _actors (addActor (addActor (world500 []) 0) 0) = [0; 0] ∧
  calls (final (World_update (world500 [0; 0]) leaving)) =
    [Call_update 0; Call_update 0;
     Call_detect 0 0 (RectangleCollider (-1) 24 10 10) (RectangleCollider (-1) 24 10 10) true;
     Call_hit 0 0; Call_hit 0 0].
Proof. split; vm_compute; reflexivity. Qed.

Lemma globalCollider_leaving :
  globalCollider 0 leaving = translate 0 (-1) 20 leaving ∧
  ∀ info,
    (update 0 info;; globalCollider 0) leaving
    = (update 0 info;;
       translate 0
         (Actor_x (updated info (RectangleActor (-1) 20 (Some 0) 10 10 "rgb(255, 0, 0)" (-3) 2)))
         (Actor_y (updated info (RectangleActor (-1) 20 (Some 0) 10 10 "rgb(255, 0, 0)" (-3) 2))))
        leaving.
Proof.
  exact (globalCollider_is_translate leaving 0
           (RectangleActor (-1) 20 (Some 0) 10 10 "rgb(255, 0, 0)" (-3) 2) 0
           eq_refl eq_refl).
Defined.

(** A rectangle and a circle on top of each other: no collision is
    reported, and nothing is thrown. *)
Lemma detect_rectangle_circle :
  ∃ σ', detectCollision 0 1 mixed = Normal false σ'.
Proof.
  refine (detect_other_kinds mixed 0 1 (RectangleCollider 0 0 10 10)
            (SubCollider {| circle_x := 5; circle_y := 5; circle_radius := 5 |})
            eq_refl eq_refl _).
  intros [_ H]. discriminate H.
Defined.

Lemma detectCollision_pure_touching :
  value_of (detectCollision 0 1 touching) = inl false.
Proof.
  destruct (detectCollision_pure touching 0 1) as (_ & _ & Hvalue).
  apply (Hvalue 0%float 0%float (RectangleCollider 0 0 10 10)
           10%float 0%float (RectangleCollider 0 0 10 10)).
  - by eexists _, _.
  - by eexists _, _.
Defined.

Lemma translate_near_box :
  ∃ new σ',
    translate 0 3 4 near_box = Normal new σ' ∧
    collider_heap σ' !! new = Some (RectangleCollider 3 4 1 1) ∧
    collider_heap σ' !! 0 = Some (RectangleCollider 0 0 1 1).
Proof.
  destruct (translate_returns_new_instance near_box 0 0 0 1 1 3 4 eq_refl)
    as (new & σ' & Hrun & _ & Hnew & Hthis & _).
  exists new, σ'. split; [exact Hrun|]. split; [exact Hnew | exact Hthis].
Defined.

Lemma translate_twice_near_box :
  result_obj ((t ← translate 0 1 2; translate t 3 4) near_box)
    = Some (RectangleCollider 4 6 1 1) ∧
  result_obj ((t ← translate 0 1 2; translate t 3 4) near_box)
    = result_obj (translate 0 (1 + 3) (2 + 4) near_box).
Proof.
  destruct (translate_twice near_box 0 0 0 1 1 1 2 3 4 eq_refl) as (Htwice & _ & Hsame).
  split; [exact Htwice|]. apply Hsame. split; reflexivity.
Defined.

Example translate_twice_far_box :
  result_obj ((t ← translate 0 1 0; translate t 1 0) far_box)
    = Some (RectangleCollider 9007199254740992 0 1 1) ∧
  result_obj (translate 0 (1 + 1) (0 + 0) far_box)
    = Some (RectangleCollider 9007199254740994 0 1 1).
Proof. split; vm_compute; reflexivity. Qed.

(** C9 fails on the code: at [x = 2^53] the sum [x + 1] rounds back to
    [x], so two translations by 1 leave [x] where it is, and one
    translation by [1 + 1] moves it by 2. *)
Lemma translate_twice_rounds :
  result_obj ((t ← translate 0 1 0; translate t 1 0) far_box)
  ≠ result_obj (translate 0 (1 + 1) (0 + 0) far_box).
Proof.
  intros H.
  apply (f_equal (λ o, match o with
                       | Some (RectangleCollider x _ _ _) => PrimFloat.eqb x 9007199254740992
                       | _ => false
                       end)) in H.
  vm_compute in H. discriminate H.
Qed.

(** * Further properties of the program *)

(** ** The detector: symmetry and errors *)

Section DetectorMore.
Context {Shape : Type} {sub : ColliderSubclass Shape}.
Implicit Types (σ : State Shape) (a : ref) (g : ColliderObj Shape).

Lemma overlap_sym g1 g2 : overlap g1 g2 = overlap g2 g1.
Proof.
  unfold overlap.
  destruct (js_lt (left g2) (right g1)), (js_lt (left g1) (right g2)),
    (js_lt (top g2) (bottom g1)), (js_lt (top g1) (bottom g2)); reflexivity.
Qed.

Lemma dispatch_sym g1 g2 : dispatch g1 g2 = dispatch g2 g1.
Proof.
  unfold dispatch. rewrite overlap_sym.
  by destruct (String.eqb (Collider_type g1) "rectangle"),
    (String.eqb (Collider_type g2) "rectangle").
Qed.

Lemma detectCollision_value σ a1 a2 x1 y1 co1 x2 y2 co2 :
  placed σ a1 x1 y1 co1 → placed σ a2 x2 y2 co2 →
  value_of (detectCollision a1 a2 σ) =
    match translated co1 x1 y1, translated co2 x2 y2 with
    | Some g1, Some g2 => inl (dispatch g1 g2)
    | _, _ => inr TypeError
    end.
Proof.
  intros P1 P2. pose proof (placed_global _ _ _ _ _ P1) as H1.
  destruct (translated co1 x1 y1) as [g1|].
  - pose proof (globalCollider_spec _ _ _ H1) as S1.
    pose proof (placed_global _ _ _ _ _ (placed_alloc _ _ _ _ _ g1 P2)) as H2.
    destruct (translated co2 x2 y2) as [g2|].
    + by rewrite (detectCollision_steps _ _ _ _ _ H1 H2).
    + destruct (global_of_None_throws _ _ H2) as (σ' & T & ->).
      unfold detectCollision. rewrite (bind_normal _ _ _ _ _ S1).
      by rewrite (bind_throw _ _ _ _ _ T).
  - destruct (global_of_None_throws _ _ H1) as (σ' & T & ->).
    unfold detectCollision. by rewrite (bind_throw _ _ _ _ _ T).
Qed.

(** X1. [detectCollision] does not depend on the order of its two
    arguments: on two bodies that have a collider it returns the same
    boolean, or throws the same error, either way round. *)
Theorem detectCollision_symmetric σ a1 a2 x1 y1 co1 x2 y2 co2 :
  placed σ a1 x1 y1 co1 → placed σ a2 x2 y2 co2 →
  value_of (detectCollision a1 a2 σ) = value_of (detectCollision a2 a1 σ).
Proof.
  intros P1 P2.
  rewrite (detectCollision_value _ _ _ _ _ _ _ _ _ P1 P2).
  rewrite (detectCollision_value _ _ _ _ _ _ _ _ _ P2 P1).
  destruct (translated co1 x1 y1), (translated co2 x2 y2); try done.
  by rewrite dispatch_sym.
Qed.

Lemma no_collider_global σ a : no_collider σ a → global_of σ a = None.
Proof.
  intros (o & Ho & [Hc | (c & t & x & y & Hc & Hco)]); unfold global_of;
    rewrite Ho; simpl; rewrite Hc; simpl; [done|]. by rewrite Hco.
Qed.

Lemma no_collider_alloc σ a g :
  no_collider σ a →
  no_collider (Build_State (actor_heap σ)
                 (<[fresh (dom (collider_heap σ)) := g]> (collider_heap σ)) (calls σ)) a.
Proof.
  intros (o & Ho & [Hc | (c & t & x & y & Hc & Hco)]); exists o; simpl;
    (split; [done|]); [by left|].
  right. exists c, t, x, y. split; [done|].
  rewrite lookup_insert_ne; [done|]. intros <-. by rewrite fresh_collider in Hco.
Qed.

(** X2. A body whose [_collider] is [null] or a base-class [Collider]
    makes [detectCollision] throw a [TypeError], whichever argument it
    is.  As first argument nothing has changed when the error is thrown;
    as second argument no actor and no earlier collider has changed and
    nothing was logged. *)
Theorem detectCollision_without_collider σ a :
  no_collider σ a →
  (∀ b, detectCollision a b σ = Throw TypeError σ) ∧
  (∀ b, ∃ σ', detectCollision b a σ = Throw TypeError σ' ∧
              actor_heap σ' = actor_heap σ ∧
              collider_heap σ ⊆ collider_heap σ' ∧
              calls σ' = calls σ).
Proof.
  intros Hn. split.
  - intros b.
    destruct (global_of_None_throws _ _ (no_collider_global _ _ Hn)) as (σ' & T & ->).
    unfold detectCollision. by rewrite (bind_throw _ _ _ _ _ T).
  - intros b. destruct (global_of σ b) as [g|] eqn:Hb.
    + pose proof (globalCollider_spec _ _ _ Hb) as S1.
      pose proof (no_collider_global _ _ (no_collider_alloc _ _ g Hn)) as Ha.
      destruct (global_of_None_throws _ _ Ha) as (σ' & T & ->).
      eexists. split.
      * unfold detectCollision. rewrite (bind_normal _ _ _ _ _ S1).
        by rewrite (bind_throw _ _ _ _ _ T).
      * simpl. split_and!; try done. apply insert_subseteq, fresh_collider.
    + destruct (global_of_None_throws _ _ Hb) as (σ' & T & ->).
      exists σ. split; [|done].
      unfold detectCollision. by rewrite (bind_throw _ _ _ _ _ T).
Qed.

Lemma detectCollision_actor_heap σ a1 a2 :
  actor_heap (final (detectCollision a1 a2 σ)) = actor_heap σ.
Proof.
  destruct (global_of σ a1) as [g1|] eqn:H1.
  - pose proof (globalCollider_spec _ _ _ H1) as S1.
    set (σ1 := Build_State _ _ _) in S1.
    destruct (global_of σ1 a2) as [g2|] eqn:H2.
    + by rewrite (detectCollision_steps _ _ _ _ _ H1 H2).
    + destruct (global_of_None_throws _ _ H2) as (σ' & T & ->).
      unfold detectCollision. rewrite (bind_normal _ _ _ _ _ S1).
      by rewrite (bind_throw _ _ _ _ _ T).
  - destruct (global_of_None_throws _ _ H1) as (σ' & T & ->).
    unfold detectCollision. by rewrite (bind_throw _ _ _ _ _ T).
Qed.

End DetectorMore.

(** ** What every run keeps *)

Section Invariants.
Context {Shape : Type} {sub : ColliderSubclass Shape}.
Implicit Types (σ : State Shape) (a : ref) (o : ActorObj) (P : State Shape → Prop).

Lemma keeps_ret {A} P (x : A) : keeps P (mret x).
Proof. by intros σ H. Qed.

Lemma keeps_throw {A} P e : keeps P (throw (A := A) e).
Proof. by intros σ H. Qed.

Lemma keeps_bind {A B} P (m : M Shape A) (f : A → M Shape B) :
  keeps P m → (∀ x, keeps P (f x)) → keeps P (m ≫= f).
Proof.
  intros Hm Hf σ H. specialize (Hm σ H). unfold mbind, M_bind.
  destruct (m σ) as [x σ'|e σ']; simpl in *; [by apply Hf|done].
Qed.

Lemma keeps_forEach P (f : ref → M Shape unit) (l : list ref) :
  (∀ a, keeps P (f a)) → keeps P (forEach l f).
Proof.
  intros Hf. induction l as [|a l IH]; simpl; [apply keeps_ret|].
  apply keeps_bind; [apply Hf|]. by intros _.
Qed.

Lemma keeps_for_loop P (body : nat → M Shape unit) (n i : nat) :
  (∀ j, keeps P (body j)) → keeps P (for_loop n i body).
Proof.
  intros Hb. revert i. induction n as [|n IH]; intros i; simpl; [apply keeps_ret|].
  apply keeps_bind; [apply Hb|]. intros _. apply IH.
Qed.

Lemma keeps_at_index P (l : list ref) (i : nat) : keeps P (at_index l i).
Proof. unfold at_index. destruct (l !! i); [apply keeps_ret | apply keeps_throw]. Qed.

(** A loop throws when one of its iterations throws wherever [P] holds
    and all of them keep [P]. *)
Lemma for_loop_throws P (body : nat → M Shape unit) (n i k : nat) :
  (∀ j, keeps P (body j)) →
  (∀ σ, P σ → ∃ σ', body k σ = Throw TypeError σ') →
  i ≤ k < i + n →
  ∀ σ, P σ → ∃ σ', for_loop n i body σ = Throw TypeError σ'.
Proof.
  intros Hb Hk. revert i. induction n as [|n IH]; intros i Hi σ H; [lia|]. simpl.
  destruct (decide (i = k)) as [->|Hne].
  - destruct (Hk σ H) as (σ' & T). exists σ'. by rewrite (bind_throw _ _ _ _ _ T).
  - pose proof (Hb i σ H) as H1. destruct (body i σ) as [[] σ1|[] σ1] eqn:E.
    + destruct (IH (S i) ltac:(lia) σ1 H1) as (σ' & T). exists σ'.
      by rewrite (bind_normal _ _ _ _ _ E).
    + exists σ1. by rewrite (bind_throw _ _ _ _ _ E).
Qed.

Lemma update_missing σ a info :
  actor_heap σ !! a = None → update a info σ = Throw TypeError σ.
Proof.
  intros Ho. unfold update.
  erewrite (bind_throw (load_actor a)); [done|].
  unfold load_actor. by rewrite Ho.
Qed.

Lemma hit_missing σ a other :
  actor_heap σ !! a = None → hit a other σ = Throw TypeError σ.
Proof.
  intros Ho. unfold hit.
  erewrite (bind_throw (load_actor a)); [done|].
  unfold load_actor. by rewrite Ho.
Qed.

Section Related.
Variable R : ActorObj → ActorObj → Prop.
Variable σ0 : State Shape.

Lemma related_heap σ σ' :
  actor_heap σ' = actor_heap σ → related R σ0 σ → related R σ0 σ'.
Proof. intros E H a. rewrite E. apply H. Qed.

Lemma related_store σ a o (f : ActorObj → ActorObj) l :
  (∀ o1 o2, R o1 o2 → R o1 (f o2)) →
  actor_heap σ !! a = Some o → related R σ0 σ →
  related R σ0 (Build_State (<[a := f o]> (actor_heap σ)) (collider_heap σ) l).
Proof.
  intros Hf Ho H b. simpl. destruct (decide (b = a)) as [->|Hne].
  - rewrite lookup_insert_eq. specialize (H a). rewrite Ho in H.
    inversion H as [o1 o2 HR|]; subst. constructor. by apply Hf.
  - rewrite lookup_insert_ne by done. apply H.
Qed.

Lemma keeps_update a info :
  (∀ o1 o2, R o1 o2 → R o1 (updated info o2)) → keeps (related R σ0) (update a info).
Proof.
  intros Hf σ H. destruct (actor_heap σ !! a) as [o|] eqn:Ho.
  - rewrite (update_spec _ _ _ _ Ho). simpl. by apply related_store.
  - rewrite (update_missing _ _ _ Ho). simpl. by eapply related_heap.
Qed.

Lemma keeps_hit a other :
  (∀ o1 o2, R o1 o2 → R o1 (was_hit o2)) → keeps (related R σ0) (hit a other).
Proof.
  intros Hf σ H. destruct (actor_heap σ !! a) as [o|] eqn:Ho.
  - rewrite (hit_spec _ _ _ _ Ho). simpl. by apply related_store.
  - rewrite (hit_missing _ _ _ Ho). simpl. by eapply related_heap.
Qed.

Lemma keeps_detectCollision a1 a2 : keeps (related R σ0) (detectCollision a1 a2).
Proof. intros σ H. eapply related_heap; [apply detectCollision_actor_heap|done]. Qed.

Lemma keeps_hitTest_pair w (i j : nat) :
  (∀ o1 o2, R o1 o2 → R o1 (was_hit o2)) → keeps (related R σ0) (hitTest_pair w i j).
Proof.
  intros Hf. unfold hitTest_pair.
  apply keeps_bind; [apply keeps_at_index|]. intros a1.
  apply keeps_bind; [apply keeps_at_index|]. intros a2.
  apply keeps_bind; [apply keeps_detectCollision|]. intros [|]; [|apply keeps_ret].
  apply keeps_bind; [by apply keeps_hit|]. intros _. by apply keeps_hit.
Qed.

Lemma keeps_hitTest w :
  (∀ o1 o2, R o1 o2 → R o1 (was_hit o2)) → keeps (related R σ0) (_hitTest w).
Proof.
  intros Hf. unfold _hitTest, for_range.
  apply keeps_for_loop. intros i. apply keeps_for_loop. intros j.
  by apply keeps_hitTest_pair.
Qed.

Lemma keeps_World_update w :
  (∀ info o1 o2, R o1 o2 → R o1 (updated info o2)) →
  (∀ o1 o2, R o1 o2 → R o1 (was_hit o2)) →
  keeps (related R σ0) (World_update w).
Proof.
  intros Hu Hh. unfold World_update, update_all.
  apply keeps_bind; [|intros _; by apply keeps_hitTest].
  apply keeps_forEach. intros a. apply keeps_update, Hu.
Qed.

End Related.

End Invariants.

(** ** Worlds that are too small, or hold a body without collider *)

Section Failures.
Context {Shape : Type} {sub : ColliderSubclass Shape}.
Implicit Types (σ : State Shape) (a : ref) (o : ActorObj).

(** X3. With fewer than two bodies the sweep calls nothing and changes
    nothing, whatever the body is (even one without collider); and
    [World.update] on a world without bodies changes nothing at all. *)
Theorem sweep_needs_two_bodies w σ :
  length (_actors w) ≤ 1 →
  _hitTest w σ = Normal tt σ ∧
  (_actors w = [] → World_update w σ = Normal tt σ).
Proof.
  intros Hlen. unfold World_update, update_all, _hitTest, for_range.
  destruct (_actors w) as [|a [|b l]]; simpl in *; [done|done|lia].
Qed.

Lemma same_or_hit_was_hit o1 o2 : same_or_hit o1 o2 → same_or_hit o1 (was_hit o2).
Proof. intros [->| ->]; right; [done|]. by rewrite was_hit_idemp. Qed.

Lemma related_refl (R : ActorObj → ActorObj → Prop) σ :
  (∀ o, R o o) → related R σ σ.
Proof. intros HR a. destruct (actor_heap σ !! a); by constructor. Qed.

Lemma same_or_hit_null σ1 σ a o :
  related same_or_hit σ1 σ → actor_heap σ1 !! a = Some o → collider o = None →
  ∃ o', actor_heap σ !! a = Some o' ∧ collider o' = None.
Proof.
  intros H Ho Hc. specialize (H a). rewrite Ho in H.
  inversion H as [o1 o' [->| ->]|]; subst; eexists; (split; [done|]); [done|].
  by destruct o.
Qed.

Lemma detectCollision_null σ a1 a2 o :
  (actor_heap σ !! a1 = Some o ∨ actor_heap σ !! a2 = Some o) → collider o = None →
  ∃ σ', detectCollision a1 a2 σ = Throw TypeError σ'.
Proof.
  intros Ho Hc.
  assert (Hnull : ∀ σ0 a, actor_heap σ0 !! a = Some o → global_of σ0 a = None).
  { intros σ0 a H0. unfold global_of. rewrite H0. simpl. by rewrite Hc. }
  unfold detectCollision. destruct (global_of σ a1) as [g1|] eqn:H1.
  - destruct Ho as [Ho|Ho]; [by rewrite (Hnull _ _ Ho) in H1|].
    rewrite (bind_normal _ _ _ _ _ (globalCollider_spec _ _ _ H1)).
    set (σ1 := Build_State _ _ _).
    destruct (global_of_None_throws σ1 a2 (Hnull σ1 a2 Ho)) as (σ' & T & _).
    exists σ'. by rewrite (bind_throw _ _ _ _ _ T).
  - destruct (global_of_None_throws _ _ H1) as (σ' & T & _).
    exists σ'. by rewrite (bind_throw _ _ _ _ _ T).
Qed.

(** X4. In a world of at least two bodies, one body with a [null]
    collider makes [World.update] throw a [TypeError], and only in the
    sweep: by then every body has been updated, and when the error is
    thrown every body is as the motion pass left it, or that after
    [hit]. *)
Theorem World_update_without_collider w σ a o :
  2 ≤ length (_actors w) →
  (∀ b, b ∈ _actors w → is_Some (actor_heap σ !! b)) →
  a ∈ _actors w → actor_heap σ !! a = Some o → collider o = None →
  ∃ σ1 σ',
    update_all w σ = Normal tt σ1 ∧
    moved {| info_width := _width w; info_height := _height w |} σ (_actors w) σ1 ∧
    World_update w σ = Throw TypeError σ' ∧
    related same_or_hit σ1 σ'.
Proof.
  intros Hlen Hall Hin Ho Hc.
  destruct (forEach_update_spec {| info_width := _width w; info_height := _height w |}
              σ (_actors w) Hall [] σ (moved_refl _ σ)) as (σ1 & Hu & Hm).
  simpl in Hm. change (update_all w σ = Normal tt σ1) in Hu.
  assert (Ho1 : ∃ o1, actor_heap σ1 !! a = Some o1 ∧ collider o1 = None).
  { destruct Hm as (_ & _ & Ha). specialize (Ha a). rewrite Ho in Ha.
    eexists. split; [exact Ha|]. by rewrite iter_updated_collider. }
  destruct Ho1 as (o1 & Ho1 & Hc1).
  apply list_elem_of_lookup in Hin as [k Hk].
  pose proof (lookup_lt_Some _ _ _ Hk) as Hklt.
  set (P := related same_or_hit σ1).
  assert (HP : P σ1) by (apply related_refl; by left).
  assert (Hkeep : ∀ i j, keeps P (hitTest_pair w i j)).
  { intros i j. apply keeps_hitTest_pair, same_or_hit_was_hit. }
  assert (Hthrow : ∃ σ', _hitTest w σ1 = Throw TypeError σ').
  { unfold _hitTest, for_range.
    apply (for_loop_throws P _ _ 0 0); [|  | lia | done].
    - intros i. by apply keeps_for_loop.
    - intros σ2 H2.
      apply (for_loop_throws P _ _ _ (k `max` 1)); [done| |lia|done].
      intros σ3 H3. unfold hitTest_pair, at_index.
      destruct (lookup_lt_is_Some_2 (_actors w) 0 ltac:(lia)) as [a1 Ha1].
      destruct (lookup_lt_is_Some_2 (_actors w) (k `max` 1) ltac:(lia)) as [a2 Ha2].
      rewrite Ha1, Ha2.
      rewrite (bind_normal _ _ σ3 a1 σ3 eq_refl), (bind_normal _ _ σ3 a2 σ3 eq_refl).
      destruct (same_or_hit_null _ _ _ _ H3 Ho1 Hc1) as (o3 & Ho3 & Hc3).
      destruct (detectCollision_null σ3 a1 a2 o3) as (σ' & T); [|done|].
      + destruct k as [|k].
        * left. replace a1 with a by congruence. done.
        * right. replace (S k `max` 1) with (S k) in Ha2 by lia.
          replace a2 with a by congruence. done.
      + exists σ'. by rewrite (bind_throw _ _ _ _ _ T). }
  destruct Hthrow as (σ' & T).
  exists σ1, σ'. split_and!; try done.
  - unfold World_update. by rewrite (bind_normal _ _ _ _ _ Hu).
  - pose proof (keeps_hitTest same_or_hit σ1 w same_or_hit_was_hit σ1 HP) as HP'.
    by rewrite T in HP'.
Qed.

End Failures.

(** ** Frame after frame *)

Section Frames.
Context {Shape : Type} {sub : ColliderSubclass Shape}.
Implicit Types (σ : State Shape) (a : ref) (o : ActorObj).

Lemma opp_involutive (x : num) : (- - x)%float = x.
Proof.
  apply Prim2SF_inj. rewrite !opp_spec.
  destruct (Prim2SF x) as [[]|[]| |[] m e]; reflexivity.
Qed.

Lemma same_speed_refl o : same_speed o o.
Proof. destruct o; simpl; auto 10. Qed.

Lemma same_speed_updated info o1 o2 : same_speed o1 o2 → same_speed o1 (updated info o2).
Proof.
  destruct o1, o2; simpl; try done.
  intros (-> & -> & -> & Hx & Hy). split_and!; try done.
  - destruct (_ || _); [|done]. destruct Hx as [->| ->]; [by right|left].
    apply opp_involutive.
  - destruct (_ || _); [|done]. destruct Hy as [->| ->]; [by right|left].
    apply opp_involutive.
Qed.

Lemma same_speed_was_hit o1 o2 : same_speed o1 o2 → same_speed o1 (was_hit o2).
Proof. by destruct o1, o2. Qed.

Lemma frame_final w σ : final (frame w σ).1 = final (World_update w σ).
Proof.
  unfold frame. destruct (World_update w σ) as [[] σ'|e σ']; [|done].
  destruct (World_render w σ') as [ops [e|]]; done.
Qed.

Lemma frames_keep P (n : nat) w σ :
  keeps P (World_update w) → P σ → P (final (frames n w σ).1).
Proof.
  intros Hk. revert σ. induction n as [|n IH]; intros σ HP; [done|]. simpl.
  pose proof (Hk σ HP) as H1. rewrite <- frame_final in H1.
  destruct (frame w σ) as [[[] σ'|e σ'] ops]; simpl in *; [|done].
  specialize (IH σ' H1). by destruct (frames n w σ').
Qed.

(** X5. However many frames run, and however they end, a rectangle body
    keeps its collider, its width and its height, and each component of
    its velocity is the initial one or its opposite: the speed is never
    changed, clamped or renormalised. *)
Theorem velocity_only_changes_sign (n : nat) w σ a x y (cl : option ref)
    width height color vx vy :
  actor_heap σ !! a = Some (RectangleActor x y cl width height color vx vy) →
  ∃ x' y' color' vx' vy',
    actor_heap (final (frames n w σ).1) !! a
      = Some (RectangleActor x' y' cl width height color' vx' vy') ∧
    (vx' = vx ∨ vx' = (- vx)%float) ∧ (vy' = vy ∨ vy' = (- vy)%float).
Proof.
  intros Ho.
  assert (H : related same_speed σ (final (frames n w σ).1)).
  { apply frames_keep; [|apply related_refl, same_speed_refl].
    apply keeps_World_update;
      [intros info; apply same_speed_updated | apply same_speed_was_hit]. }
  specialize (H a). rewrite Ho in H. inversion H as [o1 o2 HR E1 E2|]; subst.
  destruct o2 as [|x' y' c' w' h' col' vx' vy']; [done|].
  destruct HR as (-> & -> & -> & Hx & Hy). by exists x', y', col', vx', vy'.
Qed.

Lemma render_each_ok σ (l : list ref) :
  (∀ a, a ∈ l → is_Some (actor_heap σ !! a)) →
  render_each σ l = (flat_map (λ a, from_option rendered [] (actor_heap σ !! a)) l, None).
Proof.
  induction l as [|a l IH]; intros Hl; [done|]. simpl.
  destruct (Hl a ltac:(left)) as [o Ho]. rewrite Ho.
  by rewrite IH by (intros b Hb; apply Hl; by right).
Qed.

Lemma swept_ready σ1 new σ' (l : list ref) : swept σ1 new σ' → ready σ1 l → ready σ' l.
Proof.
  intros Hs Hr a Ha. destruct (Hr a Ha) as [g Hg]. exists g. by eapply swept_global.
Qed.

Lemma World_update_ready w σ :
  ready σ (_actors w) →
  ∃ σ', World_update w σ = Normal tt σ' ∧ ready σ' (_actors w).
Proof.
  intros Hr. destruct (World_update_spec w σ Hr) as (σ1 & σ' & _ & _ & HW & Hm & Hs).
  exists σ'. split; [done|]. eapply swept_ready; [done|]. by eapply moved_ready.
Qed.

Lemma frame_ready w σ :
  ready σ (_actors w) →
  ∃ σ', World_update w σ = Normal tt σ' ∧ ready σ' (_actors w) ∧
        frame w σ =
          (Normal tt σ',
           Op_clearRect 0 0 worldSize worldSize
             :: flat_map (λ a, from_option rendered [] (actor_heap σ' !! a)) (_actors w)).
Proof.
  intros Hr. destruct (World_update_ready w σ Hr) as (σ' & HW & Hr').
  exists σ'. split_and!; try done. unfold frame, World_render. rewrite HW.
  rewrite render_each_ok; [done|]. intros a Ha. by eapply ready_actor.
Qed.

(** X6. When every body of the world has a collider that can be
    translated, no frame ever throws: any number of frames run to their
    end, and the bodies still have their colliders afterwards. *)
Theorem frames_never_throw (n : nat) w σ :
  ready σ (_actors w) →
  ∃ σ' ops, frames n w σ = (Normal tt σ', ops) ∧ ready σ' (_actors w).
Proof.
  revert σ. induction n as [|n IH]; intros σ Hr; simpl.
  - by exists σ, [].
  - destruct (frame_ready w σ Hr) as (σ1 & _ & Hr1 & ->).
    destruct (IH σ1 Hr1) as (σ' & ops & -> & Hr'). by eexists _, _.
Qed.

End Frames.

(** ** Who is hit, and what is drawn *)

Section Hits.
Context {Shape : Type} {sub : ColliderSubclass Shape}.
Implicit Types (σ : State Shape) (a b : ref) (o : ActorObj) (g : ColliderObj Shape).

Lemma pair_calls_in_sweep σ (actors : list ref) (i j : nat) a1 a2 c :
  i < j → actors !! i = Some a1 → actors !! j = Some a2 →
  c ∈ pair_calls σ a1 a2 → c ∈ sweep_calls σ actors.
Proof.
  intros Hij Hi Hj Hc. unfold sweep_calls. rewrite list_elem_of_In, in_flat_map.
  exists (i, j). split.
  - apply list_elem_of_In, index_pairs_elem. split; [done|]. by eapply lookup_lt_Some.
  - apply list_elem_of_In. unfold index_pair_calls. simpl. by rewrite Hi, Hj.
Qed.

Lemma pair_calls_hit σ a1 a2 a b :
  Call_hit a b ∈ pair_calls σ a1 a2 ↔
  ∃ g1 g2, global_of σ a1 = Some g1 ∧ global_of σ a2 = Some g2 ∧
           dispatch g1 g2 = true ∧ ((a = a1 ∧ b = a2) ∨ (a = a2 ∧ b = a1)).
Proof.
  unfold pair_calls. split.
  - destruct (global_of σ a1) as [g1|]; [|by intros ?%elem_of_nil].
    destruct (global_of σ a2) as [g2|]; [|by intros ?%elem_of_nil].
    destruct (dispatch g1 g2) eqn:Hd; rewrite !elem_of_cons, ?elem_of_nil;
      intros H; destruct_or!; try done; injection H as -> ->;
      exists g1, g2; split_and!; auto.
  - intros (g1 & g2 & -> & -> & -> & [[-> ->]|[-> ->]]);
      rewrite !elem_of_cons; auto.
Qed.

Lemma pair_calls_detect σ a1 a2 b1 b2 c1 c2 r :
  Call_detect b1 b2 c1 c2 r ∈ pair_calls σ a1 a2 ↔
  b1 = a1 ∧ b2 = a2 ∧ global_of σ a1 = Some c1 ∧ global_of σ a2 = Some c2 ∧
  r = dispatch c1 c2.
Proof.
  unfold pair_calls. split.
  - destruct (global_of σ a1) as [g1|]; [|by intros ?%elem_of_nil].
    destruct (global_of σ a2) as [g2|]; [|by intros ?%elem_of_nil].
    destruct (dispatch g1 g2) eqn:Hd; rewrite !elem_of_cons, ?elem_of_nil;
      intros H; destruct_or!; try done; by injection H as -> -> -> -> ->.
  - intros (-> & -> & -> & -> & ->). apply elem_of_cons. by left.
Qed.

(** [hit] is called on [a] with [b] exactly when they are two entries of
    the world whose global colliders the dispatch accepts. *)
Lemma sweep_hit_iff σ (actors : list ref) a b :
  Call_hit a b ∈ sweep_calls σ actors ↔
  ∃ (i j : nat) g1 g2,
    i ≠ j ∧ actors !! i = Some a ∧ actors !! j = Some b ∧
    global_of σ a = Some g1 ∧ global_of σ b = Some g2 ∧ dispatch g1 g2 = true.
Proof.
  split.
  - intros (i & j & a1 & a2 & Hij & Hi & Hj & Hc)%sweep_calls_elem.
    apply pair_calls_hit in Hc as (g1 & g2 & H1 & H2 & Hd & [[-> ->]|[-> ->]]).
    + exists i, j, g1, g2. split_and!; try done. lia.
    + exists j, i, g2, g1. split_and!; try done; [lia|]. by rewrite dispatch_sym.
  - intros (i & j & g1 & g2 & Hij & Hi & Hj & H1 & H2 & Hd).
    destruct (decide (i < j)) as [Hlt|Hge].
    + apply (pair_calls_in_sweep σ actors i j a b); try done.
      apply pair_calls_hit. exists g1, g2. split_and!; auto.
    + apply (pair_calls_in_sweep σ actors j i b a); try done; [lia|].
      apply pair_calls_hit. exists g2, g1. rewrite dispatch_sym. split_and!; auto.
Qed.

Lemma pair_calls_block σ a1 a2 :
  pair_calls σ a1 a2 = [] ∨ is_block (pair_calls σ a1 a2).
Proof.
  unfold pair_calls. destruct (global_of σ a1) as [g1|]; [|by left].
  destruct (global_of σ a2) as [g2|]; [|by left].
  right. exists a1, a2, g1, g2. destruct (dispatch g1 g2); auto.
Qed.

Lemma pairs_blocks σ (actors : list ref) (l : list (nat * nat)) :
  ∃ blocks, flat_map (index_pair_calls σ actors) l = concat blocks ∧
            Forall is_block blocks.
Proof.
  induction l as [|p l (blocks & E & Hb)]; [by exists []|]. simpl. rewrite E.
  assert (H : index_pair_calls σ actors p = [] ∨ is_block (index_pair_calls σ actors p)).
  { unfold index_pair_calls. destruct (actors !! p.1); [|by left].
    destruct (actors !! p.2); [|by left]. apply pair_calls_block. }
  destruct H as [-> | H].
  - by exists blocks.
  - exists (index_pair_calls σ actors p :: blocks). split; [done|]. by constructor.
Qed.

(** X8. In a sweep [hit] is never called without a detected overlap, and
    always both ways.  What the sweep adds to the log is a sequence of
    blocks, one for each pair, and a block is either one detector call
    that returned [false], or one detector call on [(a, b)] that returned
    [true], then [a.hit(b)], then [b.hit(a)], in that order and with
    nothing in between.  In particular [a.hit(b)] is called exactly when
    [b.hit(a)] is, each [hit] call has a detector call on the two bodies
    that returned [true], and each such detector call has both. *)
Theorem hits_come_in_pairs w σ :
  ready σ (_actors w) →
  ∃ σ' sweep,
    _hitTest w σ = Normal tt σ' ∧ calls σ' = calls σ ++ sweep ∧
    (∃ blocks, sweep = concat blocks ∧ Forall is_block blocks) ∧
    (∀ a b, Call_hit a b ∈ sweep ↔ Call_hit b a ∈ sweep) ∧
    (∀ a b, Call_hit a b ∈ sweep →
       ∃ c1 c2, Call_detect a b c1 c2 true ∈ sweep ∨ Call_detect b a c2 c1 true ∈ sweep) ∧
    (∀ a b c1 c2, Call_detect a b c1 c2 true ∈ sweep →
       Call_hit a b ∈ sweep ∧ Call_hit b a ∈ sweep).
Proof.
  intros Hr. destruct (hitTest_spec w σ Hr) as (σ' & Hrun & Hl & _).
  exists σ', (sweep_calls σ (_actors w)). split_and!; try done.
  - apply pairs_blocks.
  - assert (Hsym : ∀ a b, Call_hit a b ∈ sweep_calls σ (_actors w) →
                          Call_hit b a ∈ sweep_calls σ (_actors w)).
    { intros a b (i & j & g1 & g2 & Hij & Hi & Hj & H1 & H2 & Hd)%sweep_hit_iff.
      apply sweep_hit_iff. exists j, i, g2, g1. split_and!; try done.
      by rewrite dispatch_sym. }
    intros a b. split; apply Hsym.
  - intros a b (i & j & a1 & a2 & Hij & Hi & Hj & Hc)%sweep_calls_elem.
    pose proof Hc as (g1 & g2 & H1 & H2 & Hd & Hab)%pair_calls_hit.
    assert (Hdet : Call_detect a1 a2 g1 g2 true ∈ sweep_calls σ (_actors w)).
    { apply (pair_calls_in_sweep σ _ i j a1 a2); try done.
      apply pair_calls_detect. by rewrite Hd. }
    destruct Hab as [[-> ->]|[-> ->]]; [exists g1, g2; by left | exists g2, g1; by right].
  - intros a b c1 c2 (i & j & a1 & a2 & Hij & Hi & Hj & Hc)%sweep_calls_elem.
    apply pair_calls_detect in Hc as (-> & -> & H1 & H2 & Hd).
    split; apply (pair_calls_in_sweep σ _ i j a1 a2); try done;
      apply pair_calls_hit; exists c1, c2; split_and!; auto.
Qed.

Lemma swept_global_iff σ1 new σ' (l : list ref) a g :
  swept σ1 new σ' → ready σ1 l → a ∈ l →
  global_of σ' a = Some g ↔ global_of σ1 a = Some g.
Proof.
  intros Hs Hr Ha. split; [|by eapply swept_global].
  intros Hg. destruct (Hr a Ha) as [g' Hg'].
  pose proof (swept_global _ _ _ _ _ Hs Hg') as Hg2. congruence.
Qed.

Lemma hit_by_overlaps σ1 σ' (l : list ref) a :
  swept σ1 (sweep_calls σ1 l) σ' → ready σ1 l →
  hit_by (sweep_calls σ1 l) a = true ↔ overlaps_another σ' l a.
Proof.
  intros Hs Hr. rewrite hit_by_elem. split.
  - intros (b & (i & j & g1 & g2 & Hij & Hi & Hj & H1 & H2 & Hd)%sweep_hit_iff).
    exists i, j, b, g1, g2. split_and!; try done; by eapply swept_global.
  - intros (i & j & b & g1 & g2 & Hij & Hi & Hj & H1 & H2 & Hd).
    exists b. apply sweep_hit_iff. exists i, j, g1, g2. split_and!; try done.
    + apply (swept_global_iff σ1 _ σ' l a g1 Hs Hr); [by eapply list_elem_of_lookup_2|done].
    + apply (swept_global_iff σ1 _ σ' l b g2 Hs Hr); [by eapply list_elem_of_lookup_2|done].
Qed.

(** After [World.update] a rectangle body of the world is red if [hit]
    was called on it in the sweep and black if not. *)
Lemma color_after_update info σ σ1 σ' (l : list ref) a col :
  moved info σ l σ1 → swept σ1 (sweep_calls σ1 l) σ' → a ∈ l →
  color_of σ' a = Some col →
  col = if hit_by (sweep_calls σ1 l) a then "rgb(255, 0, 0)"%string else "rgb(0, 0, 0)"%string.
Proof.
  intros Hm (_ & _ & Ha) Hin Hcol.
  unfold color_of in Hcol. rewrite (Ha a) in Hcol.
  pose proof (λ c, moved_color _ _ _ _ a c Hm Hin) as Hblack.
  unfold color_of in Hblack.
  destruct (actor_heap σ1 !! a) as [o1|]; [|done]. simpl in Hcol.
  destruct o1 as [|x y c wd ht col1 vx vy]; [by destruct (hit_by _ a)|].
  specialize (Hblack col1 eq_refl). subst col1.
  destruct (hit_by (sweep_calls σ1 l) a); simpl in Hcol; by injection Hcol as <-.
Qed.

(** X7. After [World.update], a rectangle body of the world is red
    exactly when, where it now stands, its global collider and that of
    another entry of the world are accepted by the detector's dispatch
    (for two rectangles: they overlap); it is black exactly when there is
    no such entry. *)
Theorem red_iff_overlapping w σ :
  ready σ (_actors w) →
  ∃ σ',
    World_update w σ = Normal tt σ' ∧
    ∀ a col, a ∈ _actors w → color_of σ' a = Some col →
      (col = "rgb(255, 0, 0)"%string ↔ overlaps_another σ' (_actors w) a) ∧
      (col = "rgb(0, 0, 0)"%string ↔ ¬ overlaps_another σ' (_actors w) a).
Proof.
  intros Hr. destruct (World_update_spec w σ Hr) as (σ1 & σ' & _ & _ & HW & Hm & Hs).
  exists σ'. split; [done|]. intros a col Hin Hcol.
  pose proof (moved_ready _ _ _ _ _ Hm Hr) as Hr1.
  rewrite <- (hit_by_overlaps σ1 σ' _ a Hs Hr1).
  rewrite (color_after_update _ _ _ _ _ _ _ Hm Hs Hin Hcol).
  destruct (hit_by (sweep_calls σ1 (_actors w)) a); split; split; try done; by intros [].
Qed.

(** X9. One frame on a world whose bodies have colliders: the canvas is
    cleared once, first, over [worldSize] x [worldSize]; then every
    rectangle body is drawn, in the order of the world, at the position
    and with the size it has after the update, each rectangle right after
    its colour is set; that colour is red or black, red exactly for the
    bodies that overlap another one.  Other actors draw nothing. *)
Theorem frame_draws_the_world w σ :
  ready σ (_actors w) →
  ∃ σ',
    frame w σ =
      (Normal tt σ',
       Op_clearRect 0 0 500 500
         :: flat_map (λ a, from_option rendered [] (actor_heap σ' !! a)) (_actors w)) ∧
    World_update w σ = Normal tt σ' ∧
    ∀ a x y (cl : option ref) width height color vx vy,
      a ∈ _actors w →
      actor_heap σ' !! a = Some (RectangleActor x y cl width height color vx vy) →
      from_option rendered [] (actor_heap σ' !! a)
        = [Set_fillStyle color; Op_fillRect x y width height] ∧
      (color = "rgb(255, 0, 0)"%string ∨ color = "rgb(0, 0, 0)"%string) ∧
      (color = "rgb(255, 0, 0)"%string ↔ overlaps_another σ' (_actors w) a).
Proof.
  intros Hr. destruct (frame_ready w σ Hr) as (σ' & HW & _ & Hf).
  exists σ'. split_and!; try done.
  intros a x y cl width height color vx vy Hin Ho.
  destruct (World_update_spec w σ Hr) as (σ1 & σ'' & _ & _ & HW' & Hm & Hs).
  rewrite HW in HW'. injection HW' as <-.
  pose proof (moved_ready _ _ _ _ _ Hm Hr) as Hr1.
  assert (Hcol : color_of σ' a = Some color) by (unfold color_of; by rewrite Ho).
  rewrite <- (hit_by_overlaps σ1 σ' _ a Hs Hr1).
  pose proof (color_after_update _ _ _ _ _ _ _ Hm Hs Hin Hcol) as E.
  rewrite Ho. simpl.
  destruct (hit_by (sweep_calls σ1 (_actors w)) a); subst color; split_and!; auto.
  all: by split.
Qed.

End Hits.

(** ** Building the world *)

Section Setup.
Context {Shape : Type} {sub : ColliderSubclass Shape}.
Implicit Types (σ : State Shape) (a b : ref) (o : ActorObj) (w : World).

Lemma fresh_actor σ : actor_heap σ !! fresh (dom (actor_heap σ)) = None.
Proof. apply not_elem_of_dom, is_fresh. Qed.

Lemma new_RectangleActor_spec σ x y width height r1 r2 :
  new_RectangleActor x y width height r1 r2 σ
  = Normal (fresh (dom (actor_heap σ))) (constructed σ x y width height r1 r2).
Proof. reflexivity. Qed.

Lemma constructed_global_new σ x y width height r1 r2 :
  global_of (constructed σ x y width height r1 r2) (fresh (dom (actor_heap σ)))
  = Some (RectangleCollider (0 + x)%float (0 + y)%float width height).
Proof.
  unfold global_of, constructed. simpl. rewrite lookup_insert_eq. simpl.
  by rewrite lookup_insert_eq.
Qed.

Lemma constructed_global_old σ x y width height r1 r2 b g :
  global_of σ b = Some g →
  global_of (constructed σ x y width height r1 r2) b = Some g.
Proof.
  intros (o & c & co & Ho & Hc & Hco & Hg)%global_of_Some.
  apply global_of_Some. exists o, c, co. unfold constructed. simpl.
  split_and!; try done.
  - rewrite lookup_insert_ne; [done|]. intros <-. by rewrite fresh_actor in Ho.
  - rewrite lookup_insert_ne; [done|]. intros <-. by rewrite fresh_collider in Hco.
Qed.

(** X10. [new RectangleActor(x, y, width, height)] makes a new actor
    with a new collider of its own, [RectangleCollider(0, 0, width,
    height)]: no existing actor or collider is changed or shared, the
    body is black, and its global collider is the rectangle of that size
    at [(0 + x, 0 + y)]. *)
Theorem new_RectangleActor_is_fresh σ x y width height r1 r2 :
  ∃ a c σ',
    new_RectangleActor x y width height r1 r2 σ = Normal a σ' ∧
    actor_heap σ !! a = None ∧ collider_heap σ !! c = None ∧
    actor_heap σ' !! a
      = Some (RectangleActor x y (Some c) width height "rgb(0, 0, 0)"
                (r1 * 10 - 5)%float (r2 * 10 - 5)%float) ∧
    collider_heap σ' !! c = Some (RectangleCollider 0 0 width height) ∧
    global_of σ' a = Some (RectangleCollider (0 + x)%float (0 + y)%float width height) ∧
    (∀ b, b ≠ a → actor_heap σ' !! b = actor_heap σ !! b) ∧
    (∀ d : ref, d ≠ c → collider_heap σ' !! d = collider_heap σ !! d) ∧
    calls σ' = calls σ.
Proof.
  eexists _, _, _. split; [apply new_RectangleActor_spec|].
  split_and!; try done.
  - apply fresh_actor.
  - apply fresh_collider.
  - apply lookup_insert_eq.
  - apply lookup_insert_eq.
  - apply constructed_global_new.
  - intros b Hb. simpl. by rewrite lookup_insert_ne.
  - intros d Hd. simpl. by rewrite lookup_insert_ne.
Qed.

Lemma constructed_set_up σ (r : num * num * num * num) :
  set_up (constructed σ (r.1.1.1 * worldSize) (r.1.1.2 * worldSize) 10 10 r.1.2 r.2)
    (fresh (dom (actor_heap σ))) r.
Proof.
  exists (fresh (dom (collider_heap σ))). unfold constructed. simpl.
  split; apply lookup_insert_eq.
Qed.

Lemma ready_collider σ (l : list ref) a o c :
  ready σ l → a ∈ l → actor_heap σ !! a = Some o → collider o = Some c →
  is_Some (collider_heap σ !! c).
Proof.
  intros Hr Ha Ho Hc. destruct (Hr a Ha) as [g (o' & c' & co & Ho' & Hc' & Hco & _)%global_of_Some].
  exists co. congruence.
Qed.

Lemma populate_spec (randoms : list (num * num * num * num)) w σ :
  ready σ (_actors w) → NoDup (_actors w) → separate σ (_actors w) →
  ∃ w' σ' new,
    populate randoms w σ = Normal w' σ' ∧
    _width w' = _width w ∧ _height w' = _height w ∧
    _actors w' = _actors w ++ new ∧ length new = length randoms ∧
    NoDup (_actors w') ∧ ready σ' (_actors w') ∧ separate σ' (_actors w') ∧
    (∀ (i : nat) a r, new !! i = Some a → randoms !! i = Some r → set_up σ' a r) ∧
    (∀ b o, actor_heap σ !! b = Some o → actor_heap σ' !! b = Some o) ∧
    (∀ (c : ref) co, collider_heap σ !! c = Some co → collider_heap σ' !! c = Some co) ∧
    calls σ' = calls σ.
Proof.
  revert w σ. induction randoms as [|r randoms IH]; intros w σ Hr Hnd Hsep.
  - exists w, σ, []. rewrite app_nil_r. split_and!; try done.
  - destruct r as [[[r1 r2] r3] r4] eqn:Er. simpl.
    rewrite (bind_normal _ _ _ _ _ (new_RectangleActor_spec σ _ _ _ _ r3 r4)).
    set (a := fresh (dom (actor_heap σ))).
    set (σ1 := constructed σ _ _ _ _ _ _).
    assert (Hfresh : a ∉ _actors w).
    { intros Hin. destruct (ready_actor _ _ _ Hr Hin) as [o Ho].
      unfold a in Ho. by rewrite fresh_actor in Ho. }
    assert (Hkeep : ∀ b o, actor_heap σ !! b = Some o → actor_heap σ1 !! b = Some o).
    { intros b o Ho. unfold σ1, constructed. simpl.
      rewrite lookup_insert_ne; [done|]. intros <-. unfold a in Ho.
      by rewrite fresh_actor in Ho. }
    assert (Hkeepc : ∀ (c : ref) co,
              collider_heap σ !! c = Some co → collider_heap σ1 !! c = Some co).
    { intros c co Hco. unfold σ1, constructed. simpl.
      rewrite lookup_insert_ne; [done|]. intros <-. by rewrite fresh_collider in Hco. }
    assert (Hold : ∀ b o, b ∈ _actors w → actor_heap σ1 !! b = Some o →
              actor_heap σ !! b = Some o).
    { intros b o Hb Ho. destruct (ready_actor _ _ _ Hr Hb) as [o' Ho'].
      rewrite (Hkeep _ _ Ho') in Ho. congruence. }
    assert (Hnew : actor_heap σ1 !! a
              = Some (RectangleActor (r1 * worldSize) (r2 * worldSize)
                        (Some (fresh (dom (collider_heap σ)))) 10 10 "rgb(0, 0, 0)"
                        (r3 * 10 - 5) (r4 * 10 - 5))).
    { unfold σ1, constructed. simpl. apply lookup_insert_eq. }
    assert (Hr1 : ready σ1 (_actors (addActor w a))).
    { intros b [Hb| ->%list_elem_of_singleton]%elem_of_app.
      - destruct (Hr b Hb) as [g Hg]. exists g. by apply constructed_global_old.
      - eexists. apply constructed_global_new. }
    assert (Hnd1 : NoDup (_actors (addActor w a))).
    { simpl. apply NoDup_app. split_and!; [done| |apply NoDup_singleton].
      intros b Hb ->%list_elem_of_singleton. done. }
    assert (Hsep1 : separate σ1 (_actors (addActor w a))).
    { intros b1 b2 o1 o2 c Hb1 Hb2 Hne Ho1 Ho2 Hc1 Hc2. simpl in Hb1, Hb2.
      apply elem_of_app in Hb1 as [Hb1| ->%list_elem_of_singleton];
        apply elem_of_app in Hb2 as [Hb2| ->%list_elem_of_singleton].
      - by apply (Hsep b1 b2 o1 o2 c Hb1 Hb2 Hne (Hold _ _ Hb1 Ho1) (Hold _ _ Hb2 Ho2)).
      - rewrite Hnew in Ho2. injection Ho2 as <-. simpl in Hc2. injection Hc2 as <-.
        destruct (ready_collider _ _ _ _ _ Hr Hb1 (Hold _ _ Hb1 Ho1) Hc1) as [co Hco].
        by rewrite fresh_collider in Hco.
      - rewrite Hnew in Ho1. injection Ho1 as <-. simpl in Hc1. injection Hc1 as <-.
        destruct (ready_collider _ _ _ _ _ Hr Hb2 (Hold _ _ Hb2 Ho2) Hc2) as [co Hco].
        by rewrite fresh_collider in Hco.
      - done. }
    destruct (IH (addActor w a) σ1 Hr1 Hnd1 Hsep1)
      as (w' & σ' & new & Hrun & Hw & Hh & Hact & Hlen & Hnd' & Hr' & Hsep' & Hset
          & Hact' & Hcol' & Hcalls).
    exists w', σ', (a :: new). split_and!; try done.
    + rewrite Hact. simpl. by rewrite <- app_assoc.
    + simpl. by rewrite Hlen.
    + intros [|i] b r'; simpl; [|by apply Hset].
      intros [= <-] [= <-].
      destruct (constructed_set_up σ (r1, r2, r3, r4)) as (c & Ho & Hco).
      exists c. split; [by apply Hact'|by apply Hcol'].
    + intros b o Ho. by apply Hact', Hkeep.
    + intros c co Hco. by apply Hcol', Hkeepc.
Qed.

(** X11. The program's set-up, for any values [Math.random()] returns:
    starting from nothing, the loop leaves a 500x500 world with one body
    for each iteration, in order and all different objects.  The body of
    iteration [i] is a black 10x10 rectangle at the position and with the
    velocity computed from the four random values of that iteration, and
    its collider is a 10x10 rectangle at its origin that no other body of
    the world holds.  Nothing has been called on the bodies yet, and from
    there any number of frames runs without an exception. *)
Theorem setup_then_frames (randoms : list (num * num * num * num)) :
  ∃ w σ,
    populate randoms (new_World worldSize worldSize) empty_state = Normal w σ ∧
    _width w = 500%float ∧ _height w = 500%float ∧
    length (_actors w) = length randoms ∧
    NoDup (_actors w) ∧
    (∀ (i : nat) a r, _actors w !! i = Some a → randoms !! i = Some r → set_up σ a r) ∧
    separate σ (_actors w) ∧
    (∀ a, a ∈ _actors w → small_black σ a) ∧
    calls σ = [] ∧
    ∀ n : nat, ∃ σ' ops, frames n w σ = (Normal tt σ', ops).
Proof.
  destruct (populate_spec randoms (new_World worldSize worldSize) empty_state)
    as (w & σ & new & Hrun & Hw & Hh & Hact & Hlen & Hnd & Hr & Hsep & Hset & _ & _
        & Hcalls).
  { by intros a ?%elem_of_nil. }
  { constructor. }
  { by intros a b oa ob c ?%elem_of_nil. }
  simpl in Hact. exists w, σ. split_and!; try done.
  - by rewrite Hact.
  - intros i a r. rewrite Hact. apply Hset.
  - intros a [i Hi]%list_elem_of_lookup. rewrite Hact in Hi.
    destruct (lookup_lt_is_Some_2 randoms i) as [r Hri].
    { rewrite <- Hlen. by eapply lookup_lt_Some. }
    destruct (Hset i a r Hi Hri) as (c & Ho & _). by eexists _, _, c, _, _.
  - intros n. clear Hrun Hset Hsep Hcalls. revert σ Hr.
    induction n as [|n IH]; intros σ Hr; simpl.
    + by eexists _, _.
    + destruct (frame_ready w σ Hr) as (σ1 & _ & Hr1 & ->).
      destruct (IH σ1 Hr1) as (σ' & ops & ->). by eexists _, _.
Qed.

End Setup.

(** ** Positions that are not numbers *)

Section NotANumber.
Context {Shape : Type} {sub : ColliderSubclass Shape}.
Implicit Types (σ : State Shape) (a : ref) (x y : num).

Lemma is_nan_SF x : PrimFloat.is_nan x = true ↔ Prim2SF x = S754_nan.
Proof.
  unfold PrimFloat.is_nan. rewrite FloatAxioms.eqb_spec. unfold SFeqb.
  destruct (Prim2SF x) as [[]|[]| |[] m e]; simpl;
    rewrite ?Z.compare_refl, ?Pos.compare_cont_refl; simpl; split; done.
Qed.

Lemma add_nan_l x y : PrimFloat.is_nan x = true → PrimFloat.is_nan (x + y) = true.
Proof. rewrite !is_nan_SF, add_spec. by intros ->. Qed.

Lemma add_nan_r x y : PrimFloat.is_nan y = true → PrimFloat.is_nan (x + y) = true.
Proof. rewrite !is_nan_SF, add_spec. intros ->. by destruct (Prim2SF x). Qed.

Lemma ltb_nan_l x y : PrimFloat.is_nan x = true → PrimFloat.ltb x y = false.
Proof. rewrite is_nan_SF, ltb_spec. by intros ->. Qed.

Lemma ltb_nan_r x y : PrimFloat.is_nan y = true → PrimFloat.ltb x y = false.
Proof. rewrite is_nan_SF, ltb_spec. intros ->. unfold SFltb. by destruct (Prim2SF x). Qed.

(** X12. A rectangle with a NaN among its position and size never
    collides: when the global colliders of two bodies are rectangles and
    one of the eight numbers is NaN, [detectCollision] returns [false]. *)
Theorem nan_never_collides σ a1 a2 x1 y1 w1 h1 x2 y2 w2 h2 :
  global_of σ a1 = Some (RectangleCollider x1 y1 w1 h1) →
  global_of σ a2 = Some (RectangleCollider x2 y2 w2 h2) →
  existsb PrimFloat.is_nan [x1; y1; w1; h1; x2; y2; w2; h2] = true →
  ∃ σ', detectCollision a1 a2 σ = Normal false σ'.
Proof.
  intros H1 H2 Hnan. eexists. rewrite (detectCollision_spec _ _ _ _ _ H1 H2).
  f_equal. rewrite dispatch_rectangles. simpl in Hnan.
  repeat (apply orb_true_iff in Hnan as [Hnan|Hnan]); [..|done].
  - rewrite (ltb_nan_r x2 (x1 + w1)) by (by apply add_nan_l). done.
  - rewrite (ltb_nan_r y2 (y1 + h1)) by (by apply add_nan_l).
    by rewrite andb_false_r.
  - rewrite (ltb_nan_r x2 (x1 + w1)) by (by apply add_nan_r). done.
  - rewrite (ltb_nan_r y2 (y1 + h1)) by (by apply add_nan_r).
    by rewrite andb_false_r.
  - rewrite (ltb_nan_l x2) by done. done.
  - rewrite (ltb_nan_l y2) by done. by rewrite andb_false_r.
  - rewrite (ltb_nan_r x1 (x2 + w2)) by (by apply add_nan_r).
    by rewrite andb_false_r.
  - rewrite (ltb_nan_r y1 (y2 + h2)) by (by apply add_nan_r).
    by rewrite !andb_false_r.
Qed.

(** X13. A NaN coordinate stays: [update] on a rectangle body whose [x]
    is NaN leaves [x] NaN and does not touch [_vx], whatever the world's
    width; the same holds of [y] and [_vy]. *)
Theorem nan_position_stays σ this info x y (cl : option ref) width height color vx vy :
  actor_heap σ !! this = Some (RectangleActor x y cl width height color vx vy) →
  ∃ σ' x' y' vx' vy',
    update this info σ = Normal tt σ' ∧
    actor_heap σ' !! this
      = Some (RectangleActor x' y' cl width height "rgb(0, 0, 0)" vx' vy') ∧
    (PrimFloat.is_nan x = true → PrimFloat.is_nan x' = true ∧ vx' = vx) ∧
    (PrimFloat.is_nan y = true → PrimFloat.is_nan y' = true ∧ vy' = vy).
Proof.
  intros Ho. eexists _, _, _, _, _. split; [by apply update_spec|]. simpl.
  split; [apply lookup_insert_eq|]. unfold gtb. split; intros Hnan.
  - pose proof (add_nan_l _ vx Hnan) as Hn. split; [done|].
    by rewrite (ltb_nan_l _ _ Hn), (ltb_nan_r _ _ Hn).
  - pose proof (add_nan_l _ vy Hnan) as Hn. split; [done|].
    by rewrite (ltb_nan_l _ _ Hn), (ltb_nan_r _ _ Hn).
Qed.

End NotANumber.

(** ** The order of the bodies *)

Section Order.
Context {Shape : Type} {sub : ColliderSubclass Shape}.
Implicit Types (σ : State Shape) (a b : ref) (l : list ref).

Lemma global_of_heaps σ1 σ2 a :
  actor_heap σ1 = actor_heap σ2 → collider_heap σ1 = collider_heap σ2 →
  global_of σ1 a = global_of σ2 a.
Proof. intros E1 E2. unfold global_of. by rewrite E1, E2. Qed.

Lemma distinct_entries l a b :
  NoDup l →
  (∃ i j : nat, i ≠ j ∧ l !! i = Some a ∧ l !! j = Some b) ↔ a ≠ b ∧ a ∈ l ∧ b ∈ l.
Proof.
  intros Hnd. split.
  - intros (i & j & Hij & Hi & Hj). split_and!.
    + intros <-. apply Hij. by eapply NoDup_lookup.
    + by eapply list_elem_of_lookup_2.
    + by eapply list_elem_of_lookup_2.
  - intros (Hab & [i Hi]%list_elem_of_lookup & [j Hj]%list_elem_of_lookup).
    exists i, j. split_and!; try done. intros <-. congruence.
Qed.

Lemma hit_by_permutation σ1 σ2 l l' a :
  NoDup l → l ≡ₚ l' →
  actor_heap σ1 = actor_heap σ2 → collider_heap σ1 = collider_heap σ2 →
  hit_by (sweep_calls σ1 l) a = hit_by (sweep_calls σ2 l') a.
Proof.
  intros Hnd Hp E1 E2. apply eq_true_iff_eq. rewrite !hit_by_elem.
  assert (Hnd' : NoDup l') by by rewrite <- Hp.
  assert (H : ∀ b g1 g2,
    (∃ i j : nat, i ≠ j ∧ l !! i = Some a ∧ l !! j = Some b ∧
       global_of σ1 a = Some g1 ∧ global_of σ1 b = Some g2 ∧ dispatch g1 g2 = true) ↔
    (∃ i j : nat, i ≠ j ∧ l' !! i = Some a ∧ l' !! j = Some b ∧
       global_of σ2 a = Some g1 ∧ global_of σ2 b = Some g2 ∧ dispatch g1 g2 = true)).
  { intros b g1 g2.
    rewrite !(global_of_heaps σ1 σ2) by done.
    split; intros (i & j & Hij & Hi & Hj & Hrest).
    - destruct (proj1 (distinct_entries l a b Hnd)) as (Hab & Ha & Hb); [by eauto|].
      rewrite Hp in Ha, Hb.
      destruct (proj2 (distinct_entries l' a b Hnd')) as (i' & j' & ? & ? & ?); [done|].
      by exists i', j'.
    - destruct (proj1 (distinct_entries l' a b Hnd')) as (Hab & Ha & Hb); [by eauto|].
      rewrite <- Hp in Ha, Hb.
      destruct (proj2 (distinct_entries l a b Hnd)) as (i' & j' & ? & ? & ?); [done|].
      by exists i', j'. }
  split; intros (b & (i & j & g1 & g2 & Hrest)%sweep_hit_iff); exists b;
    apply sweep_hit_iff; destruct (H b g1 g2) as [H1 H2].
  - destruct H1 as (i' & j' & ?); [by exists i, j|]. by exists i', j', g1, g2.
  - destruct H2 as (i' & j' & ?); [by exists i, j|]. by exists i', j', g1, g2.
Qed.

(** X14. The order in which different bodies were added does not change
    what [World.update] does to them: on the same bodies in another
    order it ends with every actor at the same position, with the same
    velocity and the same colour. *)
Theorem order_does_not_matter w σ l l' :
  ready σ l → NoDup l → l ≡ₚ l' →
  ∃ σ1 σ2,
    World_update (with_actors w l) σ = Normal tt σ1 ∧
    World_update (with_actors w l') σ = Normal tt σ2 ∧
    actor_heap σ1 = actor_heap σ2.
Proof.
  intros Hr Hnd Hp.
  assert (Hr' : ready σ l').
  { intros a Ha. apply Hr. by rewrite Hp. }
  destruct (World_update_spec (with_actors w l) σ Hr)
    as (τ1 & σ1 & _ & _ & HW1 & Hm1 & Hs1).
  destruct (World_update_spec (with_actors w l') σ Hr')
    as (τ2 & σ2 & _ & _ & HW2 & Hm2 & Hs2).
  simpl in *. exists σ1, σ2. split_and!; try done.
  destruct Hm1 as (_ & Hc1 & Ha1), Hm2 as (_ & Hc2 & Ha2).
  assert (Eτ : actor_heap τ1 = actor_heap τ2).
  { apply map_eq. intros a. rewrite Ha1, Ha2.
    by rewrite (proj1 (Permutation_count_occ Nat.eq_dec l l') Hp a). }
  assert (Ec : collider_heap τ1 = collider_heap τ2) by congruence.
  destruct Hs1 as (_ & _ & Hh1), Hs2 as (_ & _ & Hh2).
  apply map_eq. intros a. rewrite Hh1, Hh2, Eτ.
  by rewrite (hit_by_permutation τ1 τ2 l l' a Hnd Hp Eτ Ec).
Qed.

End Order.

(** * The further properties on the sample objects *)

Lemma detectCollision_symmetric_crowded :
  value_of (detectCollision 0 1 crowded) = value_of (detectCollision 1 0 crowded).
Proof.
  apply (detectCollision_symmetric crowded 0 1
           0%float 0%float (RectangleCollider 0 0 10 10)
           5%float 5%float (RectangleCollider 0 0 10 10)).
  - by eexists _, _.
  - by eexists _, _.
Defined.

Lemma no_collider_bare : no_collider bare 1.
Proof. exists (Actor 0 0 None). split; [reflexivity|]. by left. Qed.

Lemma detectCollision_bare :
  detectCollision 1 0 bare = Throw TypeError bare ∧
  ∃ σ', detectCollision 0 1 bare = Throw TypeError σ' ∧ actor_heap σ' = actor_heap bare.
Proof.
  destruct (detectCollision_without_collider bare 1 no_collider_bare) as [Hfirst Hsecond].
  split; [exact (Hfirst 0)|].
  destruct (Hsecond 0) as (σ' & Hrun & Hactors & _). exists σ'. by split.
Defined.

Lemma sweep_single_bare :
  _hitTest (world500 [1]) bare = Normal tt bare.
Proof.
  destruct (sweep_needs_two_bodies (world500 [1]) bare) as [Hrun _]; [simpl; lia|].
  exact Hrun.
Defined.

Lemma bare_actors (b : ref) : b ∈ [0; 1] → is_Some (actor_heap bare !! b).
Proof.
  intros Hb. repeat (apply elem_of_cons in Hb as [->|Hb]; [by eexists|]).
  by apply elem_of_nil in Hb.
Qed.

Lemma World_update_bare :
  ∃ σ1 σ',
    update_all (world500 [0; 1]) bare = Normal tt σ1 ∧
    World_update (world500 [0; 1]) bare = Throw TypeError σ'.
Proof.
  destruct (World_update_without_collider (world500 [0; 1]) bare 1 (Actor 0 0 None))
    as (σ1 & σ' & Hu & _ & HW & _).
  - simpl. lia.
  - exact bare_actors.
  - apply elem_of_cons. right. apply elem_of_cons. by left.
  - reflexivity.
  - reflexivity.
  - exists σ1, σ'. by split.
Defined.

Lemma velocity_three :
  ∃ x' y' color' vx' vy',
    actor_heap (final (frames 3 (world500 [0; 1; 2]) three).1) !! 0
      = Some (RectangleActor x' y' (Some 0) 10 10 color' vx' vy') ∧
    (vx' = 4%float ∨ vx' = (- 4)%float) ∧ (vy' = 0%float ∨ vy' = (- 0)%float).
Proof.
  exact (velocity_only_changes_sign 3 (world500 [0; 1; 2]) three 0
           0 0 (Some 0) 10 10 "rgb(0, 0, 0)" 4 0 eq_refl).
Defined.

Lemma frames_three :
  ∃ σ' ops, frames 3 (world500 [0; 1; 2]) three = (Normal tt σ', ops) ∧
            ready σ' [0; 1; 2].
Proof. exact (frames_never_throw 3 (world500 [0; 1; 2]) three ready_three). Defined.

Lemma red_iff_overlapping_three :
  ∃ σ',
    World_update (world500 [0; 1; 2]) three = Normal tt σ' ∧
    ∀ a col, a ∈ [0; 1; 2] → color_of σ' a = Some col →
      (col = "rgb(255, 0, 0)"%string ↔ overlaps_another σ' [0; 1; 2] a).
Proof.
  destruct (red_iff_overlapping (world500 [0; 1; 2]) three ready_three) as (σ' & HW & Hcol).
  exists σ'. split; [exact HW|]. intros a col Hin Hc.
  destruct (Hcol a col Hin Hc) as [Hred _]. exact Hred.
Defined.

Lemma hits_come_in_pairs_crowded :
  ∃ σ' sweep,
    _hitTest (world500 [0; 1; 2]) crowded = Normal tt σ' ∧
    calls σ' = calls crowded ++ sweep ∧
    (∃ blocks, sweep = concat blocks ∧ Forall is_block blocks) ∧
    (∀ a b, Call_hit a b ∈ sweep ↔ Call_hit b a ∈ sweep).
Proof.
  destruct (hits_come_in_pairs (world500 [0; 1; 2]) crowded ready_crowded)
    as (σ' & sweep & Hrun & Hcalls & Hblocks & Hsym & _).
  exists σ', sweep. split; [exact Hrun|]. split; [exact Hcalls|].
  split; [exact Hblocks | exact Hsym].
Defined.

Lemma frame_draws_three :
  ∃ σ',
    frame (world500 [0; 1; 2]) three =
      (Normal tt σ',
       Op_clearRect 0 0 500 500
         :: flat_map (λ a, from_option rendered [] (actor_heap σ' !! a)) [0; 1; 2]).
Proof.
  destruct (frame_draws_the_world (world500 [0; 1; 2]) three ready_three)
    as (σ' & Hframe & _).
  exists σ'. exact Hframe.
Defined.

(** What this frame sends to the canvas. *)
Example frame_three_operations :
  (frame (world500 [0; 1; 2]) three).2 =
    [Op_clearRect 0 0 500 500;
     Set_fillStyle "rgb(255, 0, 0)"; Op_fillRect 4 0 10 10;
     Set_fillStyle "rgb(255, 0, 0)"; Op_fillRect 11 0 10 10;
     Set_fillStyle "rgb(0, 0, 0)"; Op_fillRect 101 101 10 10].
Proof. vm_compute. reflexivity. Qed.

Lemma nan_never_collides_lost :
  ∃ σ', detectCollision 0 1 lost = Normal false σ'.
Proof.
  exact (nan_never_collides lost 0 1 PrimFloat.nan 0 10 10 0 0 10 10
           eq_refl eq_refl eq_refl).
Defined.

Lemma nan_position_stays_lost :
  ∃ σ' x' y' vx' vy',
    update 0 {| info_width := 500; info_height := 500 |} lost = Normal tt σ' ∧
    actor_heap σ' !! 0 = Some (RectangleActor x' y' (Some 0) 10 10 "rgb(0, 0, 0)" vx' vy') ∧
    PrimFloat.is_nan x' = true ∧ vx' = 1%float.
Proof.
  destruct (nan_position_stays lost 0 {| info_width := 500; info_height := 500 |}
              PrimFloat.nan 0 (Some 0) 10 10 "rgb(0, 0, 0)" 1 1 eq_refl)
    as (σ' & x' & y' & vx' & vy' & Hrun & Hobj & Hx & _).
  exists σ', x', y', vx', vy'. split; [exact Hrun|]. split; [exact Hobj|].
  exact (Hx eq_refl).
Defined.

Lemma NoDup_three : NoDup [0; 1; 2].
Proof. apply (bool_decide_unpack _). by vm_compute. Qed.

Lemma permutation_three : [0; 1; 2] ≡ₚ [2; 0; 1].
Proof. etrans; [apply perm_skip, perm_swap | apply perm_swap]. Qed.

Lemma order_does_not_matter_three :
  ∃ σ1 σ2,
    World_update (world500 [0; 1; 2]) three = Normal tt σ1 ∧
    World_update (world500 [2; 0; 1]) three = Normal tt σ2 ∧
    actor_heap σ1 = actor_heap σ2.
Proof.
  exact (order_does_not_matter (world500 []) three [0; 1; 2] [2; 0; 1]
           ready_three NoDup_three permutation_three).
Defined.
